(** * basin_hopping/filter_results.py: filtering of similar local minima

    A shallow embedding of [filter_local_minima], [filter_trajectory] and
    [main], and the properties of the rounding-based deduplication.

    Numbers.  A potential energy is a float64: a number, one of the two
    infinities, or NaN, with the comparison rules of IEEE 754 (every ordered
    comparison with NaN is false).  A number is represented by the rational
    it denotes, and the arithmetic of lines 39-45 on numbers is the exact
    one: [np.log10] followed by [np.floor] is the exact order of magnitude
    and [round] the exact rounding of halves to even.  The binary64 errors
    of [np.log10] and of the scaling inside [round], and the overflow of
    [10**d] for more than 308 places, are not represented.  The values of
    the rounded energies matter to the evaluations on concrete inputs and to
    the one statement that the rounded energy of a number is no NaN; every
    other general statement below takes the rounded energies as the rounding
    returns them.  The positions of line 43 are int32 numbers and wrap
    around.

    Libraries.  [sorted], the NumPy array operations and the ASE trajectory
    are not code of this repository; they are modelled from their documented
    behaviour, next to the source lines that call them. *)

From stdpp Require Import gmap strings.
From Stdlib Require Import String ZArith QArith Qround Qpower Qabs Lia Lqa.
From Stdlib Require Import List Bool Permutation Sorted.
Import ListNotations.

#[local] Close Scope Q_scope.
#[local] Close Scope Z_scope.

(** ** Floating-point values *)

Inductive float : Type :=
| Finite (q : Q)
| PosInf
| NegInf
| NaN.

Definition Qltb (a b : Q) : bool :=
  match (a ?= b)%Q with Lt => true | _ => false end.

Definition is_nan (x : float) : bool :=
  match x with NaN => true | _ => false end.

(** [x < y] on floats, as Python and NumPy evaluate it. *)
Definition float_lt (x y : float) : bool :=
  match x, y with
  | Finite a, Finite b => Qltb a b
  | NegInf, Finite _ | NegInf, PosInf | Finite _, PosInf => true
  | _, _ => false
  end.

(** [x == y] on floats. *)
Definition float_eq (x y : float) : bool :=
  match x, y with
  | Finite a, Finite b => Qeq_bool a b
  | PosInf, PosInf | NegInf, NegInf => true
  | _, _ => false
  end.

Definition float_abs (x : float) : float :=
  match x with
  | Finite q => Finite (Qabs q)
  | PosInf | NegInf => PosInf
  | NaN => NaN
  end.

(** ** Python's [sorted]

    [sorted(l, key=f)] compares keys with [<] only and is stable.  The model
    is an insertion sort that places each element, from left to right, in the
    already sorted prefix, scanning that prefix from its end (the prefix is
    kept reversed in the accumulator).  On keys that [<] orders totally, that
    is without NaN, every stable sort returns the same list as this one.
    With a NaN among the keys [<] is no order and the result of [sorted]
    depends on the comparisons that its algorithm happens to make; like
    [sorted], the model leaves a list unchanged when no element is smaller
    than its predecessor, and the statements below that depend on the order
    of the sorted array either assume an input without NaN or speak of the
    array as [sorted] returned it. *)

Section Sorting.
Variable A : Type.
Variable ltb : A -> A -> bool.

Fixpoint insort (x : A) (rev_prefix : list A) : list A :=
  match rev_prefix with
  | [] => [x]
  | y :: rest => if ltb x y then y :: insort x rest else x :: rev_prefix
  end.

Definition sort_by (l : list A) : list A :=
  rev (fold_left (fun acc x => insort x acc) l []).
End Sorting.
Arguments insort {A} ltb x rev_prefix.
Arguments sort_by {A} ltb l.

Definition sorted {A : Type} (key : A -> float) (l : list A) : list A :=
  sort_by (fun x y => float_lt (key x) (key y)) l.

(** ** NumPy array operations *)

(** [a[mask]] for a boolean mask of the length of [a]. *)
Fixpoint bool_index {A : Type} (a : list A) (mask : list bool) : list A :=
  match a, mask with
  | x :: a', b :: mask' =>
      if b then x :: bool_index a' mask' else bool_index a' mask'
  | _, _ => []
  end.

(** [a[indexes]] for an array of positions.  NumPy raises IndexError on a
    position outside the array; [unique_index_in_range] below shows that no
    position computed by [unique_index] is. *)
Definition int_index {A : Type} (a : list A) (indexes : list nat) : list A :=
  flat_map (fun i => match nth_error a i with Some x => [x] | None => [] end)
           indexes.

(** The order in which NumPy sorts floats: NaN after every number and after
    the infinities. *)
Definition np_lt (x y : float) : bool :=
  float_lt x y || (is_nan y && negb (is_nan x)).

(** [a.argsort(kind='mergesort')]: the stable permutation that sorts [a]. *)
Definition argsort (a : list float) : list (nat * float) :=
  sort_by (fun p q => np_lt (snd p) (snd q)) (combine (seq 0 (length a)) a).

(** Two neighbours of the sorted array belong to different groups; NaNs form
    one group (the [equal_nan] default of [np.unique]). *)
Definition np_differs (x y : float) : bool :=
  negb (float_eq x y || (is_nan x && is_nan y)).

(** [mask[:1] = True; mask[1:] = aux[1:] != aux[:-1]], then [perm[mask]]. *)
Fixpoint first_of_groups (prev : float) (aux : list (nat * float)) : list nat :=
  match aux with
  | [] => []
  | (i, x) :: aux' =>
      if np_differs x prev then i :: first_of_groups x aux'
      else first_of_groups x aux'
  end.

(** [np.unique(a, return_index=True)[1]]: for every distinct value of [a], in
    ascending order of the values, the position of its first occurrence. *)
Definition unique_index (a : list float) : list nat :=
  match argsort a with
  | [] => []
  | (i, x) :: aux => i :: first_of_groups x aux
  end.

(** ** Rounding to significant figures *)

Definition pow10 (n : Z) : Q := inject_Z (10 ^ n).

(** [np.rint]: the nearest integer, halves to the even neighbour. *)
Definition rint (x : Q) : Z :=
  let f := Qfloor x in
  match (x - inject_Z f ?= 1 # 2)%Q with
  | Lt => f
  | Gt => (f + 1)%Z
  | Eq => if Z.even f then f else (f + 1)%Z
  end.

(** [round(x, d)] on a float64 scalar: scale by [10^d], [rint], scale back;
    for a negative [d] the scaling divides first. *)
Definition round_q (x : Q) (d : Z) : Q :=
  if (0 <=? d)%Z then (inject_Z (rint (x * pow10 d)) / pow10 d)%Q
  else (inject_Z (rint (x / pow10 (- d))) * pow10 (- d))%Q.

(** [d] is [None] for a position that comes from the logarithm of zero, of an
    infinity or of NaN; see [order_of_magnitude]. *)
Definition round (x : float) (d : option Z) : float :=
  match x, d with
  | Finite q, Some d => Finite (round_q q d)
  | PosInf, Some _ => PosInf
  | NegInf, Some _ => NegInf
  | _, _ => NaN
  end.

(** The largest [j >= 0] with [b * 10^j <= a], for [0 < b <= a]. *)
Fixpoint log10_up (fuel : nat) (a b : Z) : Z :=
  match fuel with
  | O => 0%Z
  | S fuel' =>
      if (10 * b <=? a)%Z then (1 + log10_up fuel' a (10 * b))%Z else 0%Z
  end.

(** The smallest [j >= 1] with [b <= a * 10^j], for [0 < a < b]. *)
Fixpoint log10_down (fuel : nat) (a b : Z) : Z :=
  match fuel with
  | O => 1%Z
  | S fuel' =>
      if (b <=? 10 * a)%Z then 1%Z else (1 + log10_down fuel' (10 * a) b)%Z
  end.

(** [floor(log10(x))] for a rational [x > 0]. *)
Definition floor_log10 (x : Q) : Z :=
  let a := Qnum x in
  let b := Zpos (Qden x) in
  if (b <=? a)%Z then log10_up (S (Z.to_nat (Z.log2 a))) a b
  else (- log10_down (S (Z.to_nat (Z.log2 b))) a b)%Z.

(** [np.floor(np.log10(np.abs(e))).astype(np.int32)] for one entry.  For a
    number other than zero the value lies between -324 and 308 and the cast
    is exact.  The logarithm of zero, of an infinity or of NaN is not a
    number and its cast to int32 has no defined value (NumPy warns of an
    invalid value in the cast): [None].  The integer that the cast leaves
    there is of the magnitude of [2^31], and with a position of that size
    [round] returns NaN on every float; that is what [round] does with
    [None]. *)
Definition order_of_magnitude (e : float) : option Z :=
  match float_abs e with
  | Finite q => if Qltb 0%Q q then Some (floor_log10 q) else None
  | _ => None
  end.

(** Arithmetic on int32 arrays wraps around. *)
Definition int32 (z : Z) : Z := ((z + 2 ^ 31) mod 2 ^ 32 - 2 ^ 31)%Z.

(** ** Structures *)

(** An [ase.atoms.Atoms] object, as far as the filter looks at it: the
    configuration itself (an opaque code) and its potential energy. *)
Record Atoms : Type := mkAtoms {
  configuration : nat;
  potential_energy : float
}.

Definition get_potential_energy (a : Atoms) : float := potential_energy a.

(** ** [filter_local_minima] *)

(** Lines 27-29: the atoms sorted by ascending potential energy. *)
Definition sorted_atoms (atoms : list Atoms) : list Atoms :=
  sorted get_potential_energy atoms.

(** Line 31. *)
Definition potential_energies (atoms : list Atoms) : list float :=
  map get_potential_energy (sorted_atoms atoms).

(** Line 33: [potential_energies < 0]. *)
Definition indexes (atoms : list Atoms) : list bool :=
  map (fun e => float_lt e (Finite 0%Q)) (potential_energies atoms).

(** Lines 34-35: [_atoms] and [potential_energies] once the entries that
    are not below zero are removed. *)
Definition negative_atoms (atoms : list Atoms) : list Atoms :=
  bool_index (sorted_atoms atoms) (indexes atoms).

Definition negative_energies (atoms : list Atoms) : list float :=
  bool_index (potential_energies atoms) (indexes atoms).

(** Lines 39-45, for one entry of [potential_energies]. *)
Definition round_energy (significant_figures : Z) (energy : float) : float :=
  let order_of_magnitudes := order_of_magnitude energy in
  let positions_msd := option_map (fun k => (- (k + 1))%Z) order_of_magnitudes in
  let rounding :=
    option_map (fun p => int32 (p + significant_figures)) positions_msd in
  round energy rounding.

Definition rounded_energies (atoms : list Atoms) (significant_figures : Z)
  : list float :=
  map (round_energy significant_figures) (negative_energies atoms).

Definition filter_local_minima (atoms : list Atoms) (significant_figures : Z)
  : list Atoms :=
  let _atoms := negative_atoms atoms in
  let rounded := rounded_energies atoms significant_figures in
  let indexes := unique_index rounded in
  int_index _atoms indexes.

(** ** The trajectory files

    [ase.io.trajectory.Trajectory] is an external collaborator.  The model
    keeps what [filter_trajectory] can observe of it: the structures stored
    under each path, one entry per [Trajectory] object created on a file (its
    path, its mode, whether it is still open), and the two ways in which the
    operating system refuses a write (a path that cannot be opened for
    writing, a disk without room for another record). *)

Inductive pyobj : Type :=
| PyNone
| PyStr (s : string)
| PyInt (n : Z).

Inductive exn : Type :=
| TypeError
| OverflowError
| AttributeError
| FileNotFoundError
| PermissionError
| OSError
| ValueError.

Record handle : Type := mkHandle {
  h_path : string;
  h_mode_w : bool;
  h_open : bool
}.

Record world : Type := mkWorld {
  disk : gmap string (list Atoms);
  handles : list handle;
  protected : gset string;
  free_records : nat
}.

Inductive result (A : Type) : Type :=
| Return (x : A)
| Raise (e : exn).
Arguments Return {A} x.
Arguments Raise {A} e.

Definition io (A : Type) : Type := world -> result A * world.

#[export] Instance io_ret : MRet io :=
  fun A (x : A) w => (Return x, w).

#[export] Instance io_bind : MBind io :=
  fun A B (k : A -> io B) (c : io A) w =>
    match c w with
    | (Return x, w') => k x w'
    | (Raise e, w') => (Raise e, w')
    end.

Definition raise {A : Type} (e : exn) : io A := fun w => (Raise e, w).

Definition set_handles (hs : list handle) (w : world) : world :=
  mkWorld (disk w) hs (protected w) (free_records w).

(** [Trajectory(filename)]: a reader on an existing file. *)
Definition Trajectory_r (filename : pyobj) : io nat :=
  fun w =>
    match filename with
    | PyStr p =>
        match disk w !! p with
        | Some _ =>
            (Return (length (handles w)),
             set_handles (handles w ++ [mkHandle p false true]) w)
        | None => (Raise FileNotFoundError, w)
        end
    | _ => (Raise TypeError, w)
    end.

(** [Trajectory(filename, 'w')]: a writer on a file that it empties.  An
    object that is no string is no path: ASE takes it for an open file and
    fails with an AttributeError as soon as it uses it, in [write] or in
    [close], without a file being touched.  The model has no entry for a
    writer that is on no file, and raises when the writer is made. *)
Definition Trajectory_w (filename : pyobj) : io nat :=
  fun w =>
    match filename with
    | PyStr p =>
        if decide (p ∈ protected w) then (Raise PermissionError, w)
        else
          (Return (length (handles w)),
           mkWorld (<[p := []]> (disk w))
                   (handles w ++ [mkHandle p true true])
                   (protected w) (free_records w))
    | _ => (Raise AttributeError, w)
    end.

(** [trajectory[:]], read in full. *)
Definition getitem_all (trajectory : nat) : io (list Atoms) :=
  fun w =>
    match handles w !! trajectory with
    | Some h =>
        if h_open h then
          match disk w !! h_path h with
          | Some images => (Return images, w)
          | None => (Raise OSError, w)
          end
        else (Raise ValueError, w)
    | None => (Raise ValueError, w)
    end.

(** [trajectory.write(a)]. *)
Definition write (trajectory : nat) (a : Atoms) : io unit :=
  fun w =>
    match handles w !! trajectory with
    | Some h =>
        if h_open h && h_mode_w h then
          match free_records w with
          | O => (Raise OSError, w)
          | S n =>
              (Return tt,
               mkWorld (<[h_path h := default [] (disk w !! h_path h) ++ [a]]>
                          (disk w))
                       (handles w) (protected w) n)
          end
        else (Raise ValueError, w)
    | None => (Raise ValueError, w)
    end.

(** [trajectory.close()]. *)
Definition close (trajectory : nat) : io unit :=
  fun w =>
    (Return tt,
     set_handles
       (alter (fun h => mkHandle (h_path h) (h_mode_w h) false) trajectory
              (handles w)) w).

(** [for a in atoms: body(a)]. *)
Fixpoint for_each {A : Type} (l : list A) (body : A -> io unit) : io unit :=
  match l with
  | [] => mret tt
  | a :: l' => body a ;; for_each l' body
  end.

(** ** [filter_local_minima] on the arguments it is given at run time

    Python does not enforce the annotation [significant_figures: int]; the
    value meets the arithmetic at line 43, [positions_msd +
    significant_figures], where [positions_msd] is an int32 array.  NumPy
    converts a Python integer to the type of the array and raises
    OverflowError when it is out of the bounds of int32.  A string has no
    addition with an integer array: TypeError.  [None] is added entry by
    entry, which raises TypeError as soon as there is an entry. *)
Definition filter_local_minima_py (atoms : list Atoms)
           (significant_figures : pyobj) : io (list Atoms) :=
  match significant_figures with
  | PyInt n =>
      if ((- 2 ^ 31 <=? n) && (n <? 2 ^ 31))%Z
      then mret (filter_local_minima atoms n)
      else raise OverflowError
  | PyStr _ => raise TypeError
  | PyNone =>
      match negative_atoms atoms with
      | [] => mret []
      | _ :: _ => raise TypeError
      end
  end.

(** ** [filter_trajectory] and [main] *)

Definition filter_trajectory (input significant_figures output : pyobj)
  : io unit :=
  let output := match output with PyNone => input | _ => output end in
  trajectory ← Trajectory_r input;
  images ← getitem_all trajectory;
  atoms ← filter_local_minima_py images significant_figures;
  close trajectory;;
  trajectory ← Trajectory_w output;
  for_each atoms (fun a => write trajectory a);;
  close trajectory.

(** [kwargs.get(key, default)]. *)
Definition dict_get (kwargs : gmap string pyobj) (key : string)
           (default_value : pyobj) : pyobj :=
  default default_value (kwargs !! key).

Definition main (kwargs : gmap string pyobj) : io unit :=
  filter_trajectory (dict_get kwargs "input" PyNone)
                    (dict_get kwargs "output" PyNone)
                    (dict_get kwargs "significant_figures" (PyInt 2)).

(** The namespace that [parser.parse_args()] returns: [--input] is a
    required string, [--output] a string or [None], [--significant-figures]
    an integer (2 when the option is absent). *)
Record Namespace : Type := mkNamespace {
  ns_input : string;
  ns_output : option string;
  ns_significant_figures : Z
}.

(** [vars(args)]. *)
Definition vars (args : Namespace) : gmap string pyobj :=
  {[ "input" := PyStr (ns_input args);
     "output" := match ns_output args with
                 | Some o => PyStr o
                 | None => PyNone
                 end;
     "significant_figures" := PyInt (ns_significant_figures args) ]}.

(** The script body: [main] called with the entries of [vars(args)] as
    keyword arguments. *)
Definition cli (args : Namespace) : io unit := main (vars args).

(** * Notions used in the statements *)

(** ** Orders *)

(** [x <= y] between two floats; it does not hold of NaN. *)
Definition float_le (x y : float) : Prop :=
  match x, y with
  | Finite a, Finite b => (a <= b)%Q
  | NegInf, Finite _ | NegInf, PosInf | NegInf, NegInf => True
  | Finite _, PosInf | PosInf, PosInf => True
  | _, _ => False
  end.

(** In a run no element is smaller than its predecessor. *)
Definition no_descent {A : Type} (ltb : A -> A -> bool) (x y : A) : Prop :=
  ltb y x = false.

(** The comparison that the sort makes between [x] and an earlier element
    [y] settles their order for the relation [le]. *)
Definition decides {A : Type} (ltb : A -> A -> bool) (le : A -> A -> Prop)
           (y x : A) : Prop :=
  if ltb x y then le x y else le y x.

(** ** The places of the floats in a sorted NumPy array

    Minus infinity, the numbers in their order, plus infinity, NaN: a float
    has a class and, within the class of the numbers, a value. *)

Definition fclass (x : float) : Z :=
  match x with
  | NegInf => (-1)%Z
  | Finite _ => 0%Z
  | PosInf => 1%Z
  | NaN => 2%Z
  end.

Definition fval (x : float) : Q :=
  match x with Finite q => q | _ => 0%Q end.

(** [x] comes before [y]. *)
Definition np_before (x y : float) : Prop :=
  (fclass x < fclass y)%Z \/ (fclass x = fclass y /\ (fval x < fval y)%Q).

(** [x] and [y] are one value for [np.unique]: equal numbers, the same
    infinity, or NaN both. *)
Definition np_same (x y : float) : Prop :=
  fclass x = fclass y /\ (fval x == fval y)%Q.

(** ** Pairs of a position and a value, as [np.unique] sorts them *)

(** Position-value pairs: by value, and by value then position. *)
Definition vlt (p q : nat * float) : Prop := np_before (snd p) (snd q).

Definition lex (p q : nat * float) : Prop :=
  np_before (snd p) (snd q) \/ (np_same (snd p) (snd q) /\ fst p < fst q).

(** [first_of_groups] with the values kept. *)
Fixpoint group_heads (prev : float) (aux : list (nat * float))
  : list (nat * float) :=
  match aux with
  | [] => []
  | (i, x) :: aux' =>
      if np_differs x prev then (i, x) :: group_heads x aux'
      else group_heads x aux'
  end.

Definition unique_pairs (a : list float) : list (nat * float) :=
  match argsort a with
  | [] => []
  | p :: aux => p :: group_heads (snd p) aux
  end.

(** Powers of ten with an integer exponent of either sign. *)
Definition tenpow (k : Z) : Q := (10 ^ k)%Q.

(** ** Structures and their rounded energies *)

Definition energies (atoms : list Atoms) : list float :=
  map get_potential_energy atoms.

Definition is_negative (a : Atoms) : bool :=
  float_lt (get_potential_energy a) (Finite 0%Q).

(** The rounded energy of a structure, as line 45 computes it. *)
Definition rounded (n : Z) (a : Atoms) : float :=
  round_energy n (get_potential_energy a).

(** The rounded energies of two structures are one value for [np.unique]. *)
Definition same_rounded (n : Z) (a b : Atoms) : Prop :=
  np_same (rounded n a) (rounded n b).

(** The rounded energies of a list increase strictly, in the order of
    [np.unique]. *)
Definition rounded_ascending (n : Z) (l : list Atoms) : Prop :=
  StronglySorted (fun a b => np_before (rounded n a) (rounded n b)) l.

Definition no_nan (atoms : list Atoms) : Prop :=
  Forall (fun a => is_nan (get_potential_energy a) = false) atoms.

(** [significant_figures] fits in an int32. *)
Definition fits_int32 (n : Z) : Prop := (- 2 ^ 31 <= n < 2 ^ 31)%Z.

(** ** Inputs *)

(** The scenario of four structures. *)
Definition scenario : list Atoms :=
  [ mkAtoms 0 (Finite (-1.001)%Q); mkAtoms 1 (Finite (-1.002)%Q);
    mkAtoms 2 (Finite (-1.02)%Q); mkAtoms 3 (Finite (-2.5)%Q) ].

(** A trajectory with a NaN energy in the middle: [sorted] leaves it as it
    is, no element being smaller than its predecessor. *)
Definition nan_trajectory : list Atoms :=
  [ mkAtoms 0 (Finite (-1.001)%Q); mkAtoms 1 NaN;
    mkAtoms 2 (Finite (-1.02)%Q) ].

(** Two energies that two significant figures merge and one separates. *)
Definition double_rounding : list Atoms :=
  [ mkAtoms 0 (Finite (-1.46)%Q); mkAtoms 1 (Finite (-1.54)%Q) ].


(** ** Handles and disks *)

Definition closed (h : handle) : Prop := h_open h = false.

Definition all_closed (w : world) : Prop := Forall closed (handles w).

(** A disk that holds the scenario under ["in.traj"] and has room for ten
    more records; the same with room for one record only. *)
Definition w0 : world :=
  mkWorld {[ "in.traj"%string := scenario ]} [] ∅ 10.

Definition w_full : world :=
  mkWorld {[ "in.traj"%string := scenario ]} [] ∅ 1.

(** The path that [filter_trajectory] writes to: [output], or [input] when
    [output] is [None] (lines 68-69). *)
Definition output_path (input output : pyobj) : pyobj :=
  match output with PyNone => input | _ => output end.

(** * Properties *)

(** ** The order of the floats *)

Section FloatOrder.

Lemma Qltb_true (a b : Q) : Qltb a b = true <-> (a < b)%Q.
Proof.
  unfold Qltb. rewrite Qlt_alt. destruct (a ?= b)%Q; intuition congruence.
Qed.

Lemma Qltb_false (a b : Q) : Qltb a b = false <-> (b <= a)%Q.
Proof.
  split; intros H.
  - apply Qnot_lt_le. intros Hlt. apply Qltb_true in Hlt. congruence.
  - destruct (Qltb a b) eqn:E; [|reflexivity].
    apply Qltb_true in E. exfalso. now apply (Qle_not_lt b a).
Qed.

Lemma np_before_trans (x y z : float) :
  np_before x y -> np_before y z -> np_before x z.
Proof.
  unfold np_before. intros [H1|[H1 H1']] [H2|[H2 H2']].
  - left. lia.
  - left. lia.
  - left. lia.
  - right. split; [lia | lra].
Qed.

Lemma np_before_irrefl (x : float) : ~ np_before x x.
Proof. unfold np_before. intros [H|[_ H]]; [lia | lra]. Qed.

Lemma np_same_refl (x : float) : np_same x x.
Proof. split; reflexivity. Qed.

Lemma np_same_sym (x y : float) : np_same x y -> np_same y x.
Proof. intros [H1 H2]. split; [lia | lra]. Qed.

Lemma np_same_trans (x y z : float) :
  np_same x y -> np_same y z -> np_same x z.
Proof. intros [H1 H1'] [H2 H2']. split; [lia | lra]. Qed.

Lemma np_before_same_l (x y z : float) :
  np_same x y -> np_before y z -> np_before x z.
Proof.
  unfold np_before. intros [H1 H1'] [H2|[H2 H2']];
    [left; lia | right; split; [lia | lra]].
Qed.

Lemma np_before_same_r (x y z : float) :
  np_before x y -> np_same y z -> np_before x z.
Proof.
  unfold np_before. intros [H1|[H1 H1']] [H2 H2'];
    [left; lia | right; split; [lia | lra]].
Qed.

Lemma np_before_not_same (x y : float) : np_before x y -> ~ np_same x y.
Proof. unfold np_before. intros [H|[_ H]] [H1 H2]; [lia | lra]. Qed.

Lemma np_total (x y : float) : np_before x y \/ np_same x y \/ np_before y x.
Proof.
  unfold np_before, np_same.
  destruct (Z.lt_total (fclass x) (fclass y)) as [H|[H|H]].
  - left. now left.
  - destruct (Q_dec (fval x) (fval y)) as [[Hq|Hq]|Hq].
    + left. now right.
    + right. right. right. split; [lia | exact Hq].
    + right. left. now split.
  - right. right. now left.
Qed.

Lemma np_lt_spec (x y : float) : np_lt x y = true <-> np_before x y.
Proof.
  unfold np_before, np_lt.
  destruct x as [a| | |], y as [b| | |];
    cbn [float_lt is_nan fclass fval andb orb negb];
    rewrite ?orb_false_r, ?Qltb_true;
    split; intros H; try discriminate; try reflexivity;
    try (left; lia); try (now right);
    try (destruct H as [H|[H H']]; (lia || lra || exact H')).
Qed.

Lemma np_lt_false (x y : float) : np_lt x y = false <-> ~ np_before x y.
Proof.
  rewrite <- np_lt_spec. destruct (np_lt x y); intuition congruence.
Qed.

Lemma np_differs_spec (x y : float) : np_differs x y = false <-> np_same x y.
Proof.
  unfold np_same, np_differs.
  destruct x as [a| | |], y as [b| | |];
    cbn [float_eq is_nan fclass fval andb orb negb];
    rewrite ?orb_false_r;
    try (split; [discriminate | intros [H _]; lia]);
    try (split; [intros _; split; reflexivity | reflexivity]).
  rewrite negb_false_iff, Qeq_bool_iff. split; [now split | now intros [_ H]].
Qed.

Lemma np_differs_true (x y : float) : np_differs x y = true <-> ~ np_same x y.
Proof.
  rewrite <- np_differs_spec. destruct (np_differs x y); intuition congruence.
Qed.

Lemma float_lt_spec (x y : float) :
  float_lt x y = true <->
  is_nan x = false /\ is_nan y = false /\ np_before x y.
Proof.
  rewrite <- np_lt_spec. unfold np_lt.
  destruct x as [a| | |], y as [b| | |];
    cbn [float_lt is_nan andb orb negb]; rewrite ?orb_false_r;
    intuition congruence.
Qed.

Lemma float_lt_false (x y : float) :
  is_nan x = false -> is_nan y = false ->
  float_lt x y = false <-> ~ np_before x y.
Proof.
  intros Hx Hy. pose proof (float_lt_spec x y).
  destruct (float_lt x y); intuition congruence.
Qed.

Lemma float_le_spec (x y : float) :
  float_le x y <->
  is_nan x = false /\ is_nan y = false /\ ~ np_before y x.
Proof.
  unfold np_before.
  destruct x as [a| | |], y as [b| | |];
    cbn [float_le is_nan fclass fval].
  1:{ split.
      - intros H. repeat split; try reflexivity.
        intros [H'|[_ H']]; [lia | lra].
      - intros (_ & _ & H3). apply Qnot_lt_le. intros H. apply H3.
        right. now split. }
  all: try (split; [intros _ | intros _; exact I];
            repeat split; try reflexivity; intros [H|[H H']]; (lia || lra)).
  all: split; [intros [] | intros (H1 & H2 & H3); try discriminate;
                           exfalso; apply H3; left; lia].
Qed.

Lemma float_eq_spec (x y : float) :
  float_eq x y = true <-> is_nan x = false /\ np_same x y.
Proof.
  unfold np_same.
  destruct x as [a| | |], y as [b| | |];
    cbn [float_eq is_nan fclass fval];
    try (split; [discriminate | intros (H' & H & _); (discriminate || lia)]);
    try (split; [intros _; repeat split; reflexivity | reflexivity]).
  rewrite Qeq_bool_iff. split; [now repeat split | now intros (_ & _ & H)].
Qed.

Lemma float_le_trans (x y z : float) :
  float_le x y -> float_le y z -> float_le x z.
Proof.
  rewrite !float_le_spec. intros (Hx & Hy & H1) (_ & Hz & H2).
  repeat split; try assumption. intros H.
  destruct (np_total x y) as [Hxy|[Hxy|Hxy]]; [|  |contradiction].
  - apply H2. eapply np_before_trans; eassumption.
  - apply H2. eapply np_before_same_r; eassumption.
Qed.

Lemma float_le_antisym (x y : float) :
  float_le x y -> float_le y x -> float_eq x y = true.
Proof.
  rewrite !float_le_spec, float_eq_spec. intros (Hx & Hy & H1) (_ & _ & H2).
  split; [exact Hx|]. destruct (np_total x y) as [H|[H|H]]; tauto.
Qed.

End FloatOrder.

(** ** Insertion sort *)

Section SortingFacts.
Variable A : Type.
Variable ltb : A -> A -> bool.

Lemma insort_perm (x : A) (acc : list A) :
  Permutation (insort ltb x acc) (x :: acc).
Proof.
  induction acc as [|y acc IH]; simpl; [reflexivity|].
  destruct (ltb x y); [|reflexivity].
  rewrite IH. apply perm_swap.
Qed.

Lemma fold_insort_perm (l acc : list A) :
  Permutation (fold_left (fun acc x => insort ltb x acc) l acc) (l ++ acc).
Proof.
  revert acc. induction l as [|x l IH]; intros acc; simpl; [reflexivity|].
  rewrite IH, insort_perm. symmetry. apply Permutation_middle.
Qed.

Lemma sort_by_perm (l : list A) : Permutation (sort_by ltb l) l.
Proof.
  unfold sort_by. rewrite <- Permutation_rev, fold_insort_perm.
  now rewrite app_nil_r.
Qed.

Lemma sort_by_In (l : list A) (x : A) : In x (sort_by ltb l) <-> In x l.
Proof.
  split; apply Permutation_in;
    [apply sort_by_perm | symmetry; apply sort_by_perm].
Qed.

Lemma sort_by_length (l : list A) : length (sort_by ltb l) = length l.
Proof. apply Permutation_length, sort_by_perm. Qed.

(** A list in which no element is smaller than its predecessor is left
    as it is. *)
Lemma fold_insort_run (l acc : list A) :
  Sorted (no_descent ltb) l ->
  match acc with [] => True | y :: _ => HdRel (no_descent ltb) y l end ->
  fold_left (fun acc x => insort ltb x acc) l acc = rev l ++ acc.
Proof.
  revert acc. induction l as [|x l IH]; intros acc Hs Hh; simpl; [reflexivity|].
  inversion Hs as [|? ? Hs' Hx]; subst.
  assert (Hins : insort ltb x acc = x :: acc).
  { destruct acc as [|y acc]; simpl; [reflexivity|].
    inversion Hh as [|? ? Hyx]; subst. unfold no_descent in Hyx.
    now rewrite Hyx. }
  rewrite Hins, IH by assumption.
  now rewrite <- app_assoc.
Qed.

Lemma sort_by_run (l : list A) : Sorted (no_descent ltb) l -> sort_by ltb l = l.
Proof.
  intros Hs. unfold sort_by.
  rewrite fold_insort_run by (exact Hs || exact I).
  now rewrite app_nil_r, rev_involutive.
Qed.

(** Sortedness: [le] is any transitive relation that every comparison made
    by the sort decides, the first argument of [ForallOrdPairs] being the
    element that comes first in the input. *)
Variable le : A -> A -> Prop.
Hypothesis le_trans : forall x y z, le x y -> le y z -> le x z.

Lemma insort_sorted (x : A) (acc : list A) :
  StronglySorted (fun a b => le b a) acc ->
  Forall (fun y => decides ltb le y x) acc ->
  StronglySorted (fun a b => le b a) (insort ltb x acc).
Proof using le_trans.
  induction acc as [|y acc IH]; intros Hs Hd; simpl.
  - constructor; constructor.
  - inversion Hs as [|? ? Hs' Hy]; subst.
    inversion Hd as [|? ? Hyx Hd']; subst.
    unfold decides in Hyx. destruct (ltb x y).
    + constructor; [now apply IH|].
      rewrite Forall_forall. intros z Hz.
      apply (Permutation_in _ (insort_perm x acc)) in Hz.
      destruct Hz as [<-|Hz]; [exact Hyx|].
      rewrite Forall_forall in Hy. now apply Hy.
    + constructor; [exact Hs|]. constructor; [exact Hyx|].
      rewrite Forall_forall in Hy |- *. intros z Hz.
      eapply le_trans; [apply Hy, Hz | exact Hyx].
Qed.

Lemma fold_insort_sorted (l acc : list A) :
  StronglySorted (fun a b => le b a) acc ->
  ForallOrdPairs (decides ltb le) l ->
  Forall (fun y => Forall (fun x => decides ltb le y x) l) acc ->
  StronglySorted (fun a b => le b a)
                 (fold_left (fun acc x => insort ltb x acc) l acc).
Proof using le_trans.
  revert acc. induction l as [|x l IH]; intros acc Hs Hp Hc; simpl; [exact Hs|].
  inversion Hp as [|? ? Hx Hp']; subst.
  apply IH; [|exact Hp'|].
  - apply insort_sorted; [exact Hs|].
    eapply Forall_impl; [|exact Hc]. intros y Hy. now inversion Hy.
  - rewrite Forall_forall. intros y Hy.
    apply (Permutation_in _ (insort_perm x acc)) in Hy.
    destruct Hy as [<-|Hy]; [exact Hx|].
    rewrite Forall_forall in Hc. specialize (Hc y Hy). now inversion Hc.
Qed.

Lemma StronglySorted_snoc (R : A -> A -> Prop) (l : list A) (x : A) :
  StronglySorted R l -> Forall (fun b => R b x) l ->
  StronglySorted R (l ++ [x]).
Proof.
  induction 1 as [|y l Hs IH Hy]; intros Hx; simpl.
  - constructor; constructor.
  - inversion Hx; subst. constructor; [now apply IH|].
    apply Forall_app. split; [assumption|]. now constructor.
Qed.

Lemma StronglySorted_rev (R : A -> A -> Prop) (l : list A) :
  StronglySorted (fun a b => R b a) l -> StronglySorted R (rev l).
Proof.
  induction 1 as [|x l Hs IH Hx]; simpl; [constructor|].
  apply StronglySorted_snoc; [exact IH|].
  rewrite Forall_forall in Hx |- *. intros b Hb. apply Hx. now apply in_rev.
Qed.

Lemma sort_by_sorted (l : list A) :
  ForallOrdPairs (decides ltb le) l -> StronglySorted le (sort_by ltb l).
Proof using le_trans.
  intros Hp. unfold sort_by. apply StronglySorted_rev.
  apply fold_insort_sorted; [constructor | exact Hp | constructor].
Qed.
End SortingFacts.

(** ** Rational arithmetic: [rint], [floor_log10] *)

Section RoundingFacts.
Local Open Scope Q_scope.

Lemma rint_comp (x y : Q) : x == y -> rint x = rint y.
Proof.
  intros H. unfold rint. rewrite (Qfloor_comp x y H).
  now rewrite (Qcompare_comp (x - inject_Z (Qfloor y)) (y - inject_Z (Qfloor y))
                 ltac:(now rewrite H) (1 # 2) (1 # 2) ltac:(reflexivity)).
Qed.

Lemma tenpow_pos (k : Z) : 0 < tenpow k.
Proof. apply Qpower_0_lt. reflexivity. Qed.

Lemma tenpow_add (a b : Z) : tenpow (a + b) == tenpow a * tenpow b.
Proof. apply Qpower_plus. discriminate. Qed.

Lemma tenpow_pow10 (k : Z) : (0 <= k)%Z -> tenpow k == pow10 k.
Proof. intros H. unfold tenpow, pow10. now rewrite Zpower_Qpower. Qed.

Lemma tenpow_inv (k : Z) : tenpow k * tenpow (- k) == 1.
Proof.
  rewrite <- tenpow_add. replace (k + - k)%Z with 0%Z by lia. reflexivity.
Qed.

Lemma log10_up_spec (fuel : nat) (a b : Z) :
  (0 < b <= a)%Z -> (a < b * 2 ^ Z.of_nat fuel)%Z ->
  (0 <= log10_up fuel a b /\
   b * 10 ^ log10_up fuel a b <= a < b * 10 ^ (log10_up fuel a b + 1))%Z.
Proof.
  revert b. induction fuel as [|fuel IH]; intros b Hb Hf.
  - simpl in Hf. lia.
  - simpl log10_up. destruct (Z.leb_spec (10 * b) a) as [H|H].
    + destruct (IH (10 * b)%Z) as (Hj & Hlo & Hhi); [lia| |].
      { rewrite Nat2Z.inj_succ, Z.pow_succ_r in Hf by lia. nia. }
      split; [lia|].
      rewrite (Z.add_comm 1), !Z.pow_add_r, Z.pow_1_r by lia.
      rewrite Z.pow_add_r, Z.pow_1_r in Hhi by lia. lia.
    + simpl. lia.
Qed.

Lemma log10_down_spec (fuel : nat) (a b : Z) :
  (0 < a < b)%Z -> (b <= a * 2 ^ Z.of_nat fuel)%Z ->
  (1 <= log10_down fuel a b /\
   a * 10 ^ (log10_down fuel a b - 1) < b <= a * 10 ^ log10_down fuel a b)%Z.
Proof.
  revert a. induction fuel as [|fuel IH]; intros a Ha Hf.
  - simpl in Hf. lia.
  - simpl log10_down. destruct (Z.leb_spec b (10 * a)) as [H|H].
    + simpl. lia.
    + destruct (IH (10 * a)%Z) as (Hj & Hlo & Hhi); [lia| |].
      { rewrite Nat2Z.inj_succ, Z.pow_succ_r in Hf by lia. nia. }
      split; [lia|].
      replace (1 + log10_down fuel (10 * a) b - 1)%Z
        with ((log10_down fuel (10 * a) b - 1) + 1)%Z by lia.
      rewrite (Z.add_comm 1), !Z.pow_add_r, Z.pow_1_r by lia. lia.
Qed.

Lemma floor_log10_spec (x : Q) :
  0 < x -> tenpow (floor_log10 x) <= x /\ x < tenpow (floor_log10 x + 1).
Proof.
  destruct x as [a b]. intros Hx.
  assert (Ha : (0 < a)%Z) by (unfold Qlt in Hx; simpl in Hx; lia).
  unfold floor_log10. cbn [Qnum Qden].
  destruct (Z.leb_spec (Z.pos b) a) as [Hba|Hba].
  - destruct (log10_up_spec (S (Z.to_nat (Z.log2 a))) a (Z.pos b))
      as (Hj & Hlo & Hhi); [lia| |].
    { rewrite Nat2Z.inj_succ, Z2Nat.id by apply Z.log2_nonneg.
      pose proof (Z.log2_spec a Ha). nia. }
    set (j := log10_up _ a (Z.pos b)) in *. clearbody j.
    rewrite !tenpow_pow10 by lia. unfold pow10, Qle, Qlt. cbn. lia.
  - destruct (log10_down_spec (S (Z.to_nat (Z.log2 (Z.pos b)))) a (Z.pos b))
      as (Hj & Hlo & Hhi); [lia| |].
    { rewrite Nat2Z.inj_succ, Z2Nat.id by apply Z.log2_nonneg.
      pose proof (Z.log2_spec (Z.pos b) ltac:(lia)). nia. }
    set (j := log10_down _ a (Z.pos b)) in *. clearbody j.
    split.
    + apply (Qmult_le_r _ _ (tenpow j)); [apply tenpow_pos|].
      rewrite (Qmult_comm (tenpow (- j))), tenpow_inv, tenpow_pow10 by lia.
      unfold pow10, Qle. cbn. lia.
    + replace (- j + 1)%Z with (- (j - 1))%Z by lia.
      apply (Qmult_lt_r _ _ (tenpow (j - 1))); [apply tenpow_pos|].
      rewrite (Qmult_comm (tenpow (- (j - 1)))), tenpow_inv, tenpow_pow10
        by lia.
      unfold pow10, Qlt. cbn. lia.
Qed.

Lemma floor_log10_unique (x : Q) (k : Z) :
  tenpow k <= x -> x < tenpow (k + 1) -> floor_log10 x = k.
Proof.
  intros Hlo Hhi.
  assert (Hx : 0 < x) by (pose proof (tenpow_pos k); lra).
  destruct (floor_log10_spec x Hx) as [Hlo' Hhi'].
  assert (H1 : (k < floor_log10 x + 1)%Z).
  { apply (Qpower_lt_compat_l_inv 10); [|reflexivity].
    fold (tenpow k) (tenpow (floor_log10 x + 1)). lra. }
  assert (H2 : (floor_log10 x < k + 1)%Z).
  { apply (Qpower_lt_compat_l_inv 10); [|reflexivity].
    fold (tenpow (floor_log10 x)) (tenpow (k + 1)). lra. }
  lia.
Qed.

Lemma floor_log10_comp (x y : Q) :
  0 < x -> x == y -> floor_log10 x = floor_log10 y.
Proof.
  intros Hx E. destruct (floor_log10_spec x Hx) as [Hlo Hhi].
  symmetry. apply floor_log10_unique; lra.
Qed.

Lemma round_q_comp (x y : Q) (d : Z) : x == y -> round_q x d == round_q y d.
Proof.
  intros E. unfold round_q. destruct (0 <=? d)%Z.
  - rewrite (rint_comp (x * pow10 d) (y * pow10 d)) by (now rewrite E).
    reflexivity.
  - rewrite (rint_comp (x / pow10 (- d)) (y / pow10 (- d)))
      by (now rewrite E).
    reflexivity.
Qed.

(** Floats that are one value have rounded energies that are one value. *)
Lemma round_energy_comp (n : Z) (x y : float) :
  np_same x y -> np_same (round_energy n x) (round_energy n y).
Proof.
  intros [Hc Hv].
  destruct x as [a| | |], y as [b| | |]; cbn in Hc; try discriminate;
    try apply np_same_refl.
  cbn [fval] in Hv. unfold round_energy, order_of_magnitude.
  cbn [float_abs].
  assert (Ea : Qabs a == Qabs b) by (now rewrite Hv).
  destruct (Qltb 0 (Qabs a)) eqn:Ha.
  - assert (Hb : Qltb 0 (Qabs b) = true).
    { apply Qltb_true. apply Qltb_true in Ha. lra. }
    rewrite Hb. cbn [option_map round].
    apply Qltb_true in Ha.
    rewrite (floor_log10_comp (Qabs a) (Qabs b) Ha Ea).
    split; [reflexivity|]. cbn [fval]. now apply round_q_comp.
  - assert (Hb : Qltb 0 (Qabs b) = false).
    { apply Qltb_false. apply Qltb_false in Ha. lra. }
    rewrite Hb. apply np_same_refl.
Qed.
End RoundingFacts.

(** ** [np.unique] *)

Section UniqueFacts.

Lemma first_of_groups_heads (prev : float) (aux : list (nat * float)) :
  first_of_groups prev aux = map fst (group_heads prev aux).
Proof.
  revert prev. induction aux as [|[i x] aux IH]; intros prev; cbn;
    [reflexivity|].
  destruct (np_differs x prev); cbn; now rewrite IH.
Qed.

Lemma unique_index_pairs (a : list float) :
  unique_index a = map fst (unique_pairs a).
Proof.
  unfold unique_index, unique_pairs.
  destruct (argsort a) as [|[i x] aux]; [reflexivity|].
  cbn. now rewrite first_of_groups_heads.
Qed.

Lemma lex_trans (p q r : nat * float) : lex p q -> lex q r -> lex p r.
Proof.
  unfold lex. intros [H1|[H1 H1']] [H2|[H2 H2']].
  - left. eapply np_before_trans; eassumption.
  - left. eapply np_before_same_r; eassumption.
  - left. eapply np_before_same_l; eassumption.
  - right. split; [eapply np_same_trans; eassumption | lia].
Qed.

Lemma in_combine_seq (a : list float) (s i : nat) (x : float) :
  In (i, x) (combine (seq s (length a)) a) <->
  s <= i /\ nth_error a (i - s) = Some x.
Proof.
  revert s. induction a as [|y a IH]; intros s; cbn.
  - split; [tauto|]. intros [_ H]. now destruct (i - s).
  - rewrite IH. split.
    + intros [H|[H1 H2]].
      * injection H as <- <-. split; [lia|]. now rewrite Nat.sub_diag.
      * split; [lia|]. now replace (i - s) with (S (i - S s)) by lia.
    + intros [H1 H2]. destruct (Nat.eq_dec s i) as [<-|NE].
      * rewrite Nat.sub_diag in H2. injection H2 as <-. now left.
      * right. split; [lia|].
        now replace (i - s) with (S (i - S s)) in H2 by lia.
Qed.

Lemma argsort_In (a : list float) (i : nat) (x : float) :
  In (i, x) (argsort a) <-> nth_error a i = Some x.
Proof.
  unfold argsort. rewrite sort_by_In, in_combine_seq, Nat.sub_0_r.
  intuition lia.
Qed.

Lemma first_of_groups_incl (prev : float) (aux : list (nat * float))
      (i : nat) :
  In i (first_of_groups prev aux) -> In i (map fst aux).
Proof.
  revert prev. induction aux as [|[j x] aux IH]; intros prev; cbn; [tauto|].
  destruct (np_differs x prev); cbn; intros H.
  - destruct H as [H|H]; [now left | right; eapply IH, H].
  - right. eapply IH, H.
Qed.

(** No position that [unique_index] returns lies outside the array. *)
Lemma unique_index_in_range (a : list float) :
  Forall (fun i => i < length a) (unique_index a).
Proof.
  rewrite Forall_forall. intros i Hi.
  assert (H : In i (map fst (argsort a))).
  { unfold unique_index in Hi. destruct (argsort a) as [|[i0 x0] aux];
      [destruct Hi|].
    destruct Hi as [<-|Hi]; [now left|]. right.
    eapply first_of_groups_incl, Hi. }
  apply in_map_iff in H. destruct H as ([j x] & <- & H).
  apply argsort_In in H. apply nth_error_Some. cbn. congruence.
Qed.

Lemma combine_seq_ordered (a : list float) (s : nat) :
  ForallOrdPairs
    (decides (fun p q : nat * float => np_lt (snd p) (snd q)) lex)
    (combine (seq s (length a)) a).
Proof.
  revert s. induction a as [|x a IH]; intros s; cbn; [constructor|].
  constructor; [|now apply IH].
  rewrite Forall_forall. intros [j y] Hj.
  apply in_combine_seq in Hj. destruct Hj as [Hsj _].
  unfold decides. cbn [snd].
  destruct (np_lt y x) eqn:E.
  - left. now apply np_lt_spec.
  - apply np_lt_false in E. unfold lex. cbn [fst snd].
    destruct (np_total x y) as [H|[H|H]]; [now left | | contradiction].
    right. split; [exact H | lia].
Qed.

Lemma argsort_sorted (a : list float) : StronglySorted lex (argsort a).
Proof.
  unfold argsort. apply sort_by_sorted.
  - exact lex_trans.
  - apply combine_seq_ordered.
Qed.

Lemma group_heads_spec (aux : list (nat * float)) (p0 : nat * float)
      (v : float) :
  np_same v (snd p0) ->
  StronglySorted lex (p0 :: aux) ->
  incl (p0 :: group_heads v aux) (p0 :: aux) /\
  StronglySorted vlt (p0 :: group_heads v aux) /\
  (forall q, In q (p0 :: aux) ->
             exists p, In p (p0 :: group_heads v aux) /\
                       np_same (snd p) (snd q) /\ fst p <= fst q).
Proof.
  revert p0 v. induction aux as [|[i x] aux IH]; intros p0 v Ev Hs.
  - cbn. split; [apply incl_refl|]. split; [repeat constructor|].
    intros q [<-|[]]. exists p0. split; [now left|].
    split; [apply np_same_refl | lia].
  - inversion Hs as [|? ? Hs' Hall]; subst.
    inversion Hall as [|? ? Hp0x Hall']; subst.
    cbn [group_heads].
    destruct (np_differs x v) eqn:E.
    + (* a new group *)
      apply np_differs_true in E.
      destruct (IH (i, x) x) as (Hi & Hsort & Hrep);
        [apply np_same_refl | assumption |].
      assert (Hlt : np_before (snd p0) x).
      { destruct Hp0x as [H|[H1 H2]]; cbn [fst snd] in *; [exact H|].
        exfalso. apply E. apply np_same_sym.
        eapply np_same_trans; eassumption. }
      split; [|split].
      * intros q [<-|Hq]; [now left|]. right. now apply Hi.
      * constructor; [exact Hsort|].
        rewrite Forall_forall. intros q Hq. apply Hi in Hq.
        unfold vlt. destruct Hq as [<-|Hq]; [exact Hlt|].
        inversion Hs' as [|? ? _ Hxq]; subst.
        rewrite Forall_forall in Hxq. specialize (Hxq q Hq).
        destruct Hxq as [H|[H _]]; cbn [fst snd] in *.
        -- eapply np_before_trans; eassumption.
        -- eapply np_before_same_r; eassumption.
      * intros q [<-|Hq].
        -- exists p0. split; [now left|].
           split; [apply np_same_refl | lia].
        -- destruct (Hrep q Hq) as (p & Hp & Hpq).
           exists p. split; [now right | exact Hpq].
    + (* same group as [p0] *)
      apply np_differs_spec in E.
      destruct (IH p0 x) as (Hi & Hsort & Hrep).
      { eapply np_same_trans; [exact E | exact Ev]. }
      { constructor; [|assumption]. now inversion Hs'. }
      split; [|split].
      * intros q Hq. apply Hi in Hq. destruct Hq as [<-|Hq];
          [now left | now right; right].
      * exact Hsort.
      * intros q [<-|[<-|Hq]].
        -- apply Hrep. now left.
        -- exists p0. split; [now left|]. cbn [fst snd].
           destruct Hp0x as [H|[H1 H2]]; cbn [fst snd] in *.
           ++ exfalso. eapply np_before_not_same; [exact H|].
              apply np_same_sym. eapply np_same_trans; eassumption.
           ++ split; [exact H1 | lia].
        -- apply Hrep. now right.
Qed.

Lemma unique_pairs_spec (a : list float) :
  (forall i x, In (i, x) (unique_pairs a) -> nth_error a i = Some x) /\
  StronglySorted vlt (unique_pairs a) /\
  (forall j y, nth_error a j = Some y ->
               exists i x, In (i, x) (unique_pairs a) /\
                           np_same x y /\ i <= j).
Proof.
  pose proof (argsort_sorted a) as Hs.
  pose proof (argsort_In a) as Hin.
  unfold unique_pairs. destruct (argsort a) as [|p0 aux].
  - split; [intros i x []|]. split; [constructor|].
    intros j y Hj. apply Hin in Hj. destruct Hj.
  - destruct (group_heads_spec aux p0 (snd p0)) as (Hi & Hsort & Hrep);
      [apply np_same_refl | assumption |].
    split; [|split].
    + intros i x Hp. apply Hin. now apply Hi.
    + exact Hsort.
    + intros j y Hj. apply Hin in Hj.
      destruct (Hrep (j, y) Hj) as ([i x] & Hp & Hpq).
      exists i, x. split; [exact Hp | exact Hpq].
Qed.
End UniqueFacts.

(** ** The arrays of [filter_local_minima] *)

Section FilterFacts.

Lemma bool_index_filter {A : Type} (p : A -> bool) (l : list A) :
  bool_index l (map p l) = List.filter p l.
Proof.
  induction l as [|x l IH]; cbn; [reflexivity|].
  destruct (p x); now rewrite IH.
Qed.

Lemma bool_index_map {A B : Type} (f : A -> B) (l : list A)
      (mask : list bool) :
  bool_index (map f l) mask = map f (bool_index l mask).
Proof.
  revert mask. induction l as [|x l IH]; intros [|b mask]; cbn;
    try reflexivity.
  destruct b; cbn; now rewrite IH.
Qed.

Lemma negative_atoms_filter (atoms : list Atoms) :
  negative_atoms atoms = List.filter is_negative (sorted_atoms atoms).
Proof.
  unfold negative_atoms, indexes, potential_energies. rewrite map_map.
  apply (bool_index_filter is_negative).
Qed.

Lemma negative_energies_map (atoms : list Atoms) :
  negative_energies atoms = map get_potential_energy (negative_atoms atoms).
Proof.
  unfold negative_energies, negative_atoms, potential_energies.
  apply bool_index_map.
Qed.

(** Below zero: minus infinity or a number below zero. *)
Lemma is_negative_spec (a : Atoms) :
  is_negative a = true <->
  get_potential_energy a = NegInf \/
  exists q, get_potential_energy a = Finite q /\ (q < 0)%Q.
Proof.
  unfold is_negative. destruct (get_potential_energy a) as [q| | |]; cbn.
  - rewrite Qltb_true. split.
    + intros H. right. now exists q.
    + intros [H|(q' & E & H)]; [discriminate|]. now injection E as ->.
  - split; [discriminate|]. intros [H|(q & E & _)]; discriminate.
  - split; [intros _; now left | reflexivity].
  - split; [discriminate|]. intros [H|(q & E & _)]; discriminate.
Qed.

(** Not below zero: NaN, plus infinity or a number from zero on. *)
Lemma is_negative_false (a : Atoms) :
  is_negative a = false <->
  get_potential_energy a = NaN \/ get_potential_energy a = PosInf \/
  exists q, get_potential_energy a = Finite q /\ (0 <= q)%Q.
Proof.
  unfold is_negative. destruct (get_potential_energy a) as [q| | |]; cbn.
  - rewrite Qltb_false. split.
    + intros H. right. right. now exists q.
    + intros [H|[H|(q' & E & H)]]; try discriminate. now injection E as ->.
  - split; [intros _; right; now left | reflexivity].
  - split; [discriminate|].
    intros [H|[H|(q & E & _)]]; discriminate.
  - split; [intros _; now left | reflexivity].
Qed.

Lemma is_negative_not_nan (a : Atoms) :
  is_negative a = true -> is_nan (get_potential_energy a) = false.
Proof.
  intros H. apply is_negative_spec in H.
  destruct H as [->|(q & -> & _)]; reflexivity.
Qed.

Lemma sorted_atoms_In (atoms : list Atoms) (a : Atoms) :
  In a (sorted_atoms atoms) <-> In a atoms.
Proof. apply sort_by_In. Qed.

Lemma negative_atoms_In (atoms : list Atoms) (a : Atoms) :
  In a (negative_atoms atoms) <-> In a atoms /\ is_negative a = true.
Proof.
  now rewrite negative_atoms_filter, filter_In, sorted_atoms_In.
Qed.

Lemma rounded_energies_map (atoms : list Atoms) (n : Z) :
  rounded_energies atoms n = map (rounded n) (negative_atoms atoms).
Proof.
  unfold rounded_energies. now rewrite negative_energies_map, map_map.
Qed.

Lemma rounded_energies_nth (atoms : list Atoms) (n : Z) (i : nat)
      (x : float) :
  nth_error (rounded_energies atoms n) i = Some x <->
  exists a, nth_error (negative_atoms atoms) i = Some a /\ x = rounded n a.
Proof.
  rewrite rounded_energies_map, nth_error_map.
  destruct (nth_error (negative_atoms atoms) i) as [a|] eqn:E; cbn.
  - split.
    + intros H. injection H as <-. now exists a.
    + intros (a' & Ea & ->). now injection Ea as ->.
  - split; [discriminate|]. intros (a & Ea & _). discriminate.
Qed.

Lemma int_index_Forall2 {A : Type} (l : list A) (indexes : list nat) :
  Forall (fun i => i < length l) indexes ->
  Forall2 (fun i x => nth_error l i = Some x) indexes (int_index l indexes).
Proof.
  induction 1 as [|i indexes Hi _ IH]; cbn; [constructor|].
  apply nth_error_Some in Hi.
  destruct (nth_error l i) as [x|] eqn:E; [|congruence].
  cbn. now constructor.
Qed.

(** Every position that [np.unique] returns selects a structure. *)
Lemma filter_local_minima_length (atoms : list Atoms) (n : Z) :
  length (filter_local_minima atoms n) =
  length (unique_index (rounded_energies atoms n)).
Proof.
  unfold filter_local_minima. symmetry.
  eapply Forall2_length, int_index_Forall2.
  pose proof (unique_index_in_range (rounded_energies atoms n)) as H.
  assert (E : length (rounded_energies atoms n) =
              length (negative_atoms atoms))
    by (rewrite rounded_energies_map; apply length_map).
  now rewrite E in H.
Qed.

(** The structures that [filter_local_minima] returns, position by
    position, next to the pairs that [np.unique] selects. *)
Lemma filter_local_minima_pairs (atoms : list Atoms) (n : Z) :
  Forall2 (fun p a => nth_error (negative_atoms atoms) (fst p) = Some a /\
                      snd p = rounded n a)
          (unique_pairs (rounded_energies atoms n))
          (filter_local_minima atoms n).
Proof.
  unfold filter_local_minima.
  destruct (unique_pairs_spec (rounded_energies atoms n)) as (Hnth & _ & _).
  rewrite unique_index_pairs.
  set (r := unique_pairs (rounded_energies atoms n)) in *. clearbody r.
  induction r as [|[i x] r IH]; cbn; [constructor|].
  destruct (proj1 (rounded_energies_nth atoms n i x)) as (a & Ea & Ex).
  { apply Hnth. now left. }
  rewrite Ea. cbn. constructor; [now split|].
  apply IH. intros j y Hj. apply Hnth. now right.
Qed.

Lemma vlt_same (r : list (nat * float)) (p q : nat * float) :
  StronglySorted vlt r -> In p r -> In q r ->
  np_same (snd p) (snd q) -> p = q.
Proof.
  induction 1 as [|p0 r Hs IH Hp0]; intros Hp Hq E; [destruct Hp|].
  rewrite Forall_forall in Hp0. unfold vlt in Hp0.
  destruct Hp as [<-|Hp], Hq as [<-|Hq].
  - reflexivity.
  - specialize (Hp0 q Hq). now apply np_before_not_same in Hp0.
  - specialize (Hp0 p Hp). apply np_same_sym in E.
    now apply np_before_not_same in Hp0.
  - now apply IH.
Qed.

Lemma Forall2_In_r {A B : Type} (R : A -> B -> Prop) (l : list A)
      (l' : list B) (y : B) :
  Forall2 R l l' -> In y l' -> exists x, In x l /\ R x y.
Proof.
  induction 1 as [|x0 y0 l l' H0 _ IH]; intros Hy; [destruct Hy|].
  destruct Hy as [<-|Hy].
  - exists x0. split; [now left | exact H0].
  - destruct (IH Hy) as (x & Hx & Hr). exists x. split; [now right|exact Hr].
Qed.

Lemma Forall2_In_l {A B : Type} (R : A -> B -> Prop) (l : list A)
      (l' : list B) (x : A) :
  Forall2 R l l' -> In x l -> exists y, In y l' /\ R x y.
Proof.
  induction 1 as [|x0 y0 l l' H0 _ IH]; intros Hx; [destruct Hx|].
  destruct Hx as [<-|Hx].
  - exists y0. split; [now left | exact H0].
  - destruct (IH Hx) as (y & Hy & Hr). exists y. split; [now right|exact Hr].
Qed.

Lemma Forall2_StronglySorted {A B : Type} (R : A -> B -> Prop)
      (S : A -> A -> Prop) (T : B -> B -> Prop) (l : list A) (l' : list B) :
  (forall x x' y y', R x y -> R x' y' -> S x x' -> T y y') ->
  Forall2 R l l' -> StronglySorted S l -> StronglySorted T l'.
Proof.
  intros HT. induction 1 as [|x y l l' Hxy Hll IH]; intros Hs;
    [constructor|].
  inversion Hs as [|? ? Hs' Hx]; subst.
  constructor; [now apply IH|].
  rewrite Forall_forall in Hx |- *. intros y' Hy'.
  destruct (Forall2_In_r R l l' y' Hll Hy') as (x' & Hx' & Hr).
  eapply HT; [exact Hxy | exact Hr | now apply Hx].
Qed.

Lemma StronglySorted_nth {A : Type} (R : A -> A -> Prop) (l : list A) :
  StronglySorted R l ->
  forall i j x y, i < j -> nth_error l i = Some x ->
                  nth_error l j = Some y -> R x y.
Proof.
  induction 1 as [|x0 l Hs IH Hx0]; intros i j x y Hij Hi Hj.
  - now destruct i.
  - destruct j as [|j]; [lia|]. cbn in Hj.
    destruct i as [|i]; cbn in Hi.
    + injection Hi as <-. rewrite Forall_forall in Hx0.
      apply Hx0. eapply nth_error_In, Hj.
    + apply (IH i j); [lia | assumption | assumption].
Qed.

(** What [np.unique] makes of the array of structures below zero: the
    result is drawn from it, in strictly ascending order of rounded energy;
    every structure below zero has a representative in the result, the
    first structure of the array with its rounded energy. *)
Lemma filter_local_minima_spec (atoms : list Atoms) (n : Z) :
  let out := filter_local_minima atoms n in
  let neg := negative_atoms atoms in
  (forall a, In a out -> In a neg) /\
  rounded_ascending n out /\
  (forall j b, nth_error neg j = Some b ->
     exists i a, In a out /\ nth_error neg i = Some a /\
                 same_rounded n a b /\ i <= j) /\
  (forall a, In a out ->
     exists i, nth_error neg i = Some a /\
       forall j b, nth_error neg j = Some b ->
                   same_rounded n b a -> i <= j).
Proof.
  intros out neg.
  pose proof (filter_local_minima_pairs atoms n) as HF. fold out neg in HF.
  destruct (unique_pairs_spec (rounded_energies atoms n))
    as (Hnth & Hsort & Hrep).
  set (r := unique_pairs (rounded_energies atoms n)) in *.
  assert (Hcover : forall j b, nth_error neg j = Some b ->
     exists p a, In p r /\ In a out /\ nth_error neg (fst p) = Some a /\
                 snd p = rounded n a /\ same_rounded n a b /\ fst p <= j).
  { intros j b Hb.
    destruct (Hrep j (rounded n b)) as (i & x & Hp & Hx & Hij).
    { apply rounded_energies_nth. now exists b. }
    destruct (Forall2_In_l _ _ _ _ HF Hp) as (a & Ha & Hia & Hxa).
    cbn [fst snd] in *. exists (i, x), a. cbn [fst snd].
    split; [exact Hp|]. split; [exact Ha|]. split; [exact Hia|].
    split; [exact Hxa|]. split; [|exact Hij].
    unfold same_rounded. now rewrite <- Hxa. }
  split; [|split; [|split]].
  - intros a Ha. destruct (Forall2_In_r _ _ _ _ HF Ha) as (p & _ & Hp & _).
    eapply nth_error_In, Hp.
  - unfold rounded_ascending.
    eapply Forall2_StronglySorted; [|exact HF|exact Hsort].
    intros p p' a a' [_ Hp] [_ Hp'] Hlt. unfold vlt in Hlt.
    now rewrite Hp, Hp' in Hlt.
  - intros j b Hb. destruct (Hcover j b Hb) as (p & a & _ & Ha & Hia & _ & E).
    exists (fst p), a. tauto.
  - intros a Ha.
    destruct (Forall2_In_r _ _ _ _ HF Ha) as (p & Hp & Hia & Hxa).
    exists (fst p). split; [exact Hia|]. intros j b Hb E.
    destruct (Hcover j b Hb) as (p' & a' & Hp' & _ & _ & Hxa' & E' & Hle).
    assert (p' = p) as ->; [|exact Hle].
    apply (vlt_same r); try assumption.
    rewrite Hxa, Hxa'. eapply np_same_trans; [exact E' | exact E].
Qed.

Lemma filter_local_minima_negative (atoms : list Atoms) (n : Z) (a : Atoms) :
  In a (filter_local_minima atoms n) -> In a atoms /\ is_negative a = true.
Proof.
  intros Ha. destruct (filter_local_minima_spec atoms n) as (Hin & _).
  now apply negative_atoms_In, Hin.
Qed.

Lemma rounded_ascending_nth (n : Z) (l : list Atoms) :
  rounded_ascending n l ->
  forall i j a b, i < j -> nth_error l i = Some a -> nth_error l j = Some b ->
                  np_before (rounded n a) (rounded n b).
Proof. intros Hs i j a b. now apply (StronglySorted_nth _ _ Hs). Qed.

(** In a list of strictly ascending rounded energies, structures with one
    rounded energy are one structure. *)
Lemma rounded_ascending_same (n : Z) (l : list Atoms) (a b : Atoms) :
  rounded_ascending n l -> In a l -> In b l -> same_rounded n a b -> a = b.
Proof.
  unfold rounded_ascending, same_rounded.
  induction 1 as [|a0 l Hs IH Ha0]; intros Ha Hb E; [destruct Ha|].
  rewrite Forall_forall in Ha0.
  destruct Ha as [<-|Ha], Hb as [<-|Hb].
  - reflexivity.
  - specialize (Ha0 b Hb). now apply np_before_not_same in Ha0.
  - specialize (Ha0 a Ha). apply np_same_sym in E.
    now apply np_before_not_same in Ha0.
  - now apply IH.
Qed.
End FilterFacts.

(** * The claims about [filter_local_minima] *)

(** C1: for the four structures of energies -1.001, -1.002, -1.02 and -2.5
    and two significant figures, [filter_local_minima] returns exactly two
    structures: the one of energy -2.5, then the one of energy -1.02. *)
Theorem scenario_two_significant_figures (c0 c1 c2 c3 : nat) :
  let atoms := [ mkAtoms c0 (Finite (-1.001)%Q); mkAtoms c1 (Finite (-1.002)%Q);
                 mkAtoms c2 (Finite (-1.02)%Q); mkAtoms c3 (Finite (-2.5)%Q) ] in
  filter_local_minima atoms 2 =
    [ mkAtoms c3 (Finite (-2.5)%Q); mkAtoms c2 (Finite (-1.02)%Q) ] /\
  length (filter_local_minima atoms 2) = 2 /\
  energies (filter_local_minima atoms 2) =
    [ Finite (-2.5)%Q; Finite (-1.02)%Q ].
Proof. intros atoms. repeat split; vm_compute; reflexivity. Qed.

Lemma negative_atoms_energy (atoms : list Atoms) (a : Atoms) :
  In a (negative_atoms atoms) ->
  get_potential_energy a = NegInf \/
  exists q, get_potential_energy a = Finite q /\ (q < 0)%Q.
Proof.
  intros H. apply negative_atoms_In in H. now apply is_negative_spec.
Qed.

(** ** The order of the result *)




(** ** The sign filter *)

(** C6: whatever the number of significant figures, every structure that
    [filter_local_minima] returns has a potential energy below zero (a
    number below zero, or minus infinity), no input structure of energy zero
    or more is returned, the result is empty when no input energy is below
    zero, and it is empty for the empty input. *)
Theorem filter_local_minima_sign_filter (atoms : list Atoms) (n : Z) :
  (forall a, In a (filter_local_minima atoms n) ->
             get_potential_energy a = NegInf \/
             exists q, get_potential_energy a = Finite q /\ (q < 0)%Q) /\
  (forall a, In a atoms ->
             (get_potential_energy a = PosInf \/
              exists q, get_potential_energy a = Finite q /\ (0 <= q)%Q) ->
             ~ In a (filter_local_minima atoms n)) /\
  ((forall a, In a atoms ->
              get_potential_energy a = PosInf \/
              exists q, get_potential_energy a = Finite q /\ (0 <= q)%Q) ->
   filter_local_minima atoms n = []) /\
  filter_local_minima [] n = [].
Proof.
  assert (Hneg : forall a, In a (filter_local_minima atoms n) ->
                           is_negative a = true).
  { intros a Ha. now apply (filter_local_minima_negative atoms n). }
  assert (Hpos : forall a,
             get_potential_energy a = PosInf \/
             (exists q, get_potential_energy a = Finite q /\ (0 <= q)%Q) ->
             is_negative a = false).
  { intros a H. apply is_negative_false. now right. }
  split; [|split; [|split]].
  - intros a Ha. now apply is_negative_spec, Hneg.
  - intros a _ H Ha. apply Hneg in Ha. rewrite (Hpos a H) in Ha.
    discriminate.
  - intros Hall. destruct (filter_local_minima atoms n) as [|a out] eqn:E;
      [reflexivity|exfalso].
    assert (Ha : In a (filter_local_minima atoms n))
      by (rewrite E; now left).
    apply filter_local_minima_negative in Ha. destruct Ha as [Ha Hn].
    rewrite (Hpos a (Hall a Ha)) in Hn. discriminate.
  - reflexivity.
Qed.

Lemma filter_local_minima_sign_filter_witness :
  filter_local_minima [ mkAtoms 0 (Finite 1%Q); mkAtoms 1 (Finite 0%Q) ] 2 = [].
Proof.
  destruct (filter_local_minima_sign_filter
              [ mkAtoms 0 (Finite 1%Q); mkAtoms 1 (Finite 0%Q) ] 2)
    as (_ & _ & H & _).
  apply H. intros a [<-|[<-|[]]]; cbn; right.
  - exists 1%Q. split; [reflexivity | discriminate].
  - exists 0%Q. split; [reflexivity | discriminate].
Defined.

(** ** NaN *)

Lemma round_energy_number (n : Z) (q : Q) :
  (q < 0)%Q ->
  order_of_magnitude (Finite q) = Some (floor_log10 (Qabs q)) /\
  is_nan (round_energy n (Finite q)) = false.
Proof.
  intros Hq.
  assert (E : order_of_magnitude (Finite q) = Some (floor_log10 (Qabs q))).
  { unfold order_of_magnitude, float_abs.
    assert (H : Qltb 0 (Qabs q) = true).
    { apply Qltb_true. rewrite Qabs_neg by lra. lra. }
    now rewrite H. }
  split; [exact E|]. unfold round_energy. rewrite E. reflexivity.
Qed.

(** C10: [NaN < 0] is false, so a structure whose potential energy is NaN is
    dropped by the comparison with zero: it is not in the result, and every
    energy that reaches the logarithm is below zero, so neither zero nor
    NaN: minus infinity, or a number below zero, whose order of magnitude is
    defined.  The rounded energy of a number is no NaN (the rounding of the
    model has no overflow), and no structure of the result has the energy
    NaN. *)
Theorem nan_is_filtered_before_log10 (atoms : list Atoms) (n : Z) :
  float_lt NaN (Finite 0%Q) = false /\
  (forall a, In a atoms -> get_potential_energy a = NaN ->
             ~ In a (negative_atoms atoms) /\
             ~ In a (filter_local_minima atoms n)) /\
  Forall (fun e => e = NegInf \/
                   exists q, e = Finite q /\ (q < 0)%Q /\
                             order_of_magnitude e = Some (floor_log10 (Qabs q)))
         (negative_energies atoms) /\
  ((forall a, In a atoms -> get_potential_energy a <> NegInf) ->
   Forall (fun r => is_nan r = false) (rounded_energies atoms n)) /\
  (forall a, In a (filter_local_minima atoms n) ->
             is_nan (get_potential_energy a) = false).
Proof.
  split; [reflexivity|]. split; [|split; [|split]].
  - intros a _ E.
    assert (H : ~ In a (negative_atoms atoms)).
    { intros Ha. destruct (negative_atoms_energy atoms a Ha)
        as [H|(q & Eq & _)]; congruence. }
    split; [exact H|]. intros Ha. apply H.
    apply negative_atoms_In. now apply (filter_local_minima_negative atoms n).
  - rewrite negative_energies_map, Forall_map, Forall_forall. intros a Ha.
    destruct (negative_atoms_energy atoms a Ha) as [H|(q & Eq & Hq)];
      [now left | right].
    exists q. split; [exact Eq|]. split; [exact Hq|].
    rewrite Eq. now apply (round_energy_number n).
  - intros Hinf. rewrite rounded_energies_map, Forall_map, Forall_forall.
    intros a Ha.
    destruct (negative_atoms_energy atoms a Ha) as [H|(q & Eq & Hq)].
    + apply negative_atoms_In in Ha. now destruct (Hinf a (proj1 Ha)).
    + unfold rounded. rewrite Eq. now apply round_energy_number.
  - intros a Ha. apply filter_local_minima_negative in Ha.
    now apply is_negative_not_nan.
Qed.

Lemma nan_is_filtered_before_log10_witness :
  ~ In (mkAtoms 1 NaN) (negative_atoms nan_trajectory) /\
  ~ In (mkAtoms 1 NaN) (filter_local_minima nan_trajectory 2).
Proof.
  destruct (nan_is_filtered_before_log10 nan_trajectory 2) as (_ & H & _).
  apply (H (mkAtoms 1 NaN)).
  - cbn. tauto.
  - reflexivity.
Defined.

(** ** Idempotence *)

Section Idempotence.

(** Two lists in strictly ascending order that hold the same elements are
    one list. *)
Lemma StronglySorted_unique {A : Type} (R : A -> A -> Prop) (l l' : list A) :
  (forall x, ~ R x x) -> (forall x y z, R x y -> R y z -> R x z) ->
  StronglySorted R l -> StronglySorted R l' ->
  (forall x, In x l <-> In x l') -> l = l'.
Proof.
  intros Hirr Htrans Hs. revert l'.
  induction Hs as [|x l Hs IH Hx]; intros l' Hs' Hin.
  - destruct l' as [|y l']; [reflexivity|].
    destruct (proj2 (Hin y)). now left.
  - destruct l' as [|y l'].
    { destruct (proj1 (Hin x)). now left. }
    inversion Hs' as [|? ? Hs'' Hy]; subst.
    rewrite Forall_forall in Hx, Hy.
    assert (E : x = y).
    { destruct (proj1 (Hin x)) as [E|H1]; [now left | now symmetry |].
      destruct (proj2 (Hin y)) as [E|H2]; [now left | exact E |].
      exfalso. apply (Hirr x). eapply Htrans; [apply Hx, H2 | apply Hy, H1]. }
    subst y. f_equal. apply IH; [exact Hs''|].
    intros z. split; intros Hz.
    + destruct (proj1 (Hin z)) as [E|H]; [now right | | exact H].
      subst z. exfalso. exact (Hirr x (Hx x Hz)).
    + destruct (proj2 (Hin z)) as [E|H]; [now right | | exact H].
      subst z. exfalso. exact (Hirr x (Hy x Hz)).
Qed.

(** A list of structures below zero whose rounded energies ascend strictly
    is returned as it is. *)
Lemma filter_local_minima_fixed (l : list Atoms) (n : Z) :
  Forall (fun a => is_negative a = true) l ->
  rounded_ascending n l ->
  filter_local_minima l n = l.
Proof.
  intros Hneg Hs. rewrite Forall_forall in Hneg.
  destruct (filter_local_minima_spec l n) as (Hin & Hs' & Hrep & _).
  cbv zeta in Hin, Hs', Hrep.
  apply (StronglySorted_unique
           (fun a b => np_before (rounded n a) (rounded n b)));
    [intros x; apply np_before_irrefl
    |intros x y z; apply np_before_trans
    |exact Hs' | exact Hs |].
  intros b. split.
  - intros Hb. now apply (negative_atoms_In l), Hin.
  - intros Hb.
    assert (Hbn : In b (negative_atoms l))
      by (apply negative_atoms_In; split; [exact Hb | now apply Hneg]).
    destruct (In_nth_error _ _ Hbn) as (j & Hj).
    destruct (Hrep j b Hj) as (i & a & Ha & _ & E & _).
    assert (Hal : In a l) by now apply (negative_atoms_In l), Hin.
    now rewrite <- (rounded_ascending_same n l a b Hs Hal Hb E).
Qed.

(** C7: filtering the result of [filter_local_minima] again, with the same
    number of significant figures, returns the same structures in the same
    order. *)
Theorem filter_local_minima_idempotent (atoms : list Atoms) (n : Z) :
  (0 < n)%Z ->
  filter_local_minima (filter_local_minima atoms n) n =
  filter_local_minima atoms n.
Proof.
  intros _.
  destruct (filter_local_minima_spec atoms n) as (_ & Hs & _).
  cbv zeta in Hs. apply filter_local_minima_fixed; [|exact Hs].
  rewrite Forall_forall. intros a Ha.
  now apply (filter_local_minima_negative atoms n).
Qed.

Lemma filter_local_minima_idempotent_witness :
  (0 < 2)%Z /\
  filter_local_minima (filter_local_minima scenario 2) 2 =
  filter_local_minima scenario 2.
Proof.
  assert (Hn : (0 < 2)%Z) by lia.
  split; [exact Hn|]. apply (filter_local_minima_idempotent scenario 2 Hn).
Defined.
End Idempotence.

(** ** One structure for every rounded energy *)

Section Representatives.

Lemma filter_split {A : Type} (p : A -> bool) (l m1 m2 : list A) (a : A) :
  List.filter p l = m1 ++ a :: m2 ->
  exists l1 l2, l = l1 ++ a :: l2 /\ List.filter p l1 = m1 /\
                List.filter p l2 = m2.
Proof.
  revert m1. induction l as [|x l IH]; intros m1 E; cbn in E.
  - now destruct m1.
  - destruct (p x) eqn:Hx.
    + destruct m1 as [|y m1]; cbn in E; injection E as -> E.
      * exists [], l. now repeat split.
      * destruct (IH m1 E) as (l1 & l2 & -> & E1 & E2).
        exists (y :: l1), l2. cbn. rewrite Hx, E1. now repeat split.
    + destruct (IH m1 E) as (l1 & l2 & -> & E1 & E2).
      exists (x :: l1), l2. cbn. rewrite Hx. now repeat split.
Qed.

Lemma ForallOrdPairs_all {A : Type} (R : A -> A -> Prop) (l : list A) :
  (forall x y, In x l -> In y l -> R x y) -> ForallOrdPairs R l.
Proof.
  induction l as [|x l IH]; intros H; constructor.
  - rewrite Forall_forall. intros y Hy. apply H; [now left | now right].
  - apply IH. intros y z Hy Hz. apply H; now right.
Qed.

Lemma StronglySorted_middle {A : Type} (R : A -> A -> Prop)
      (l1 l2 : list A) (a b : A) :
  StronglySorted R (l1 ++ a :: l2) -> In b l2 -> R a b.
Proof.
  induction l1 as [|x l1 IH]; cbn; intros Hs Hb.
  - inversion Hs as [|? ? _ Ha]; subst. rewrite Forall_forall in Ha.
    now apply Ha.
  - inversion Hs; subst. now apply IH.
Qed.

(** Without NaN, [sorted] orders the structures by energy. *)
Lemma sorted_atoms_sorted (atoms : list Atoms) :
  no_nan atoms ->
  StronglySorted
    (fun a b => float_le (get_potential_energy a) (get_potential_energy b))
    (sorted_atoms atoms).
Proof.
  intros Hf. unfold sorted_atoms, sorted. apply sort_by_sorted.
  - intros x y z. apply float_le_trans.
  - apply ForallOrdPairs_all. intros x y Hx Hy.
    unfold no_nan in Hf. rewrite Forall_forall in Hf.
    pose proof (Hf x Hx) as Fx. pose proof (Hf y Hy) as Fy.
    unfold decides.
    destruct (float_lt (get_potential_energy y) (get_potential_energy x))
      eqn:E.
    + apply float_lt_spec in E. apply float_le_spec.
      destruct E as (_ & _ & E). repeat split; try assumption.
      intros H. eapply np_before_irrefl, np_before_trans; eassumption.
    + apply float_lt_false in E; [|assumption..].
      apply float_le_spec. now repeat split.
Qed.

(** The place of a returned structure in the sorted array: no structure
    before it is below zero with the same rounded energy. *)
Lemma filter_local_minima_first (atoms : list Atoms) (n : Z) (a : Atoms) :
  In a (filter_local_minima atoms n) ->
  exists l1 l2,
    sorted_atoms atoms = l1 ++ a :: l2 /\
    forall c, In c l1 -> is_negative c = true -> ~ same_rounded n c a.
Proof.
  intros Ha.
  destruct (filter_local_minima_spec atoms n) as (Hin & _ & _ & Hfirst).
  cbv zeta in Hin, Hfirst.
  destruct (Hfirst a Ha) as (i & Hi & Hmin).
  destruct (nth_error_split _ _ Hi) as (m1 & m2 & Em & Hlen).
  pose proof Em as Es. rewrite negative_atoms_filter in Es.
  destruct (filter_split _ _ _ _ _ Es) as (l1 & l2 & El & E1 & _).
  exists l1, l2. split; [exact El|].
  intros c Hc Hneg Hsame.
  assert (Hcm : In c m1) by (rewrite <- E1; now apply filter_In).
  destruct (In_nth_error _ _ Hcm) as (j & Hj).
  assert (Hjlt : j < length m1) by (apply nth_error_Some; congruence).
  assert (Hj' : nth_error (negative_atoms atoms) j = Some c).
  { rewrite Em, nth_error_app1 by exact Hjlt. exact Hj. }
  assert (i <= j); [|lia].
  exact (Hmin j c Hj' Hsame).
Qed.

(** Without NaN in the input, a returned structure has the lowest energy of
    the structures below zero that share its rounded energy. *)
Lemma representative_lowest (atoms : list Atoms) (n : Z) (a b : Atoms) :
  no_nan atoms ->
  In a (filter_local_minima atoms n) -> In b atoms ->
  is_negative b = true -> same_rounded n b a ->
  float_le (get_potential_energy a) (get_potential_energy b).
Proof.
  intros Hnan Ha Hb Hnb Hsame.
  destruct (filter_local_minima_first atoms n a Ha) as (l1 & l2 & El & Hl1).
  pose proof (sorted_atoms_sorted atoms Hnan) as Hsorted.
  rewrite El in Hsorted.
  assert (Hbs : In b (l1 ++ a :: l2))
    by (rewrite <- El; now apply sorted_atoms_In).
  apply in_app_or in Hbs. destruct Hbs as [H|[H|H]].
  - exfalso. exact (Hl1 b H Hnb Hsame).
  - subst b. apply float_le_spec.
    pose proof (is_negative_not_nan a Hnb) as Hn.
    repeat split; try assumption. apply np_before_irrefl.
  - exact (StronglySorted_middle _ _ _ _ _ Hsorted H).
Qed.

(** C4, as the code has it: the result holds exactly one structure for
    every rounded energy that occurs below zero; that structure is the one
    of lowest index in the sorted array among those that share the rounded
    energy; the rounded energies of the result are pairwise different; and
    when no input energy is NaN, the structure kept has the lowest energy
    of its group. *)
Theorem filter_local_minima_representatives (atoms : list Atoms) (n : Z) :
  (0 < n)%Z ->
  let out := filter_local_minima atoms n in
  (forall b, In b atoms -> is_negative b = true ->
     exists a, In a out /\ same_rounded n a b /\
               forall a', In a' out -> same_rounded n a' b -> a' = a) /\
  (forall a, In a out ->
     exists i, nth_error (sorted_atoms atoms) i = Some a /\
       forall j c, nth_error (sorted_atoms atoms) j = Some c ->
                   is_negative c = true -> same_rounded n c a -> i <= j) /\
  (forall i j a b, i <> j -> nth_error out i = Some a ->
                   nth_error out j = Some b -> ~ same_rounded n a b) /\
  (no_nan atoms ->
   forall a b, In a out -> In b atoms -> is_negative b = true ->
               same_rounded n b a ->
               float_le (get_potential_energy a) (get_potential_energy b)).
Proof.
  intros _ out.
  destruct (filter_local_minima_spec atoms n) as (Hin & Hs & Hrep & _).
  cbv zeta in Hin, Hs, Hrep. fold out in Hin, Hs, Hrep.
  split; [|split; [|split]].
  - intros b Hb Hnb.
    assert (Hbn : In b (negative_atoms atoms))
      by now apply negative_atoms_In.
    destruct (In_nth_error _ _ Hbn) as (j & Hj).
    destruct (Hrep j b Hj) as (i & a & Ha & _ & E & _).
    exists a. split; [exact Ha|]. split; [exact E|].
    intros a' Ha' Hsame.
    apply (rounded_ascending_same n out a' a Hs Ha' Ha).
    eapply np_same_trans; [exact Hsame | apply np_same_sym; exact E].
  - intros a Ha.
    destruct (filter_local_minima_first atoms n a Ha)
      as (l1 & l2 & El & Hl1).
    exists (length l1). split.
    + rewrite El, nth_error_app2, Nat.sub_diag by lia. reflexivity.
    + intros j c Hj Hc Hsame.
      destruct (Nat.le_gt_cases (length l1) j) as [H|H]; [exact H|].
      exfalso. rewrite El, nth_error_app1 in Hj by exact H.
      apply nth_error_In in Hj. exact (Hl1 c Hj Hc Hsame).
  - intros i j a b Hij Hi Hj Hsame.
    destruct (Nat.lt_total i j) as [H|[H|H]]; [|contradiction|].
    + pose proof (rounded_ascending_nth n out Hs i j a b H Hi Hj) as Hlt.
      exact (np_before_not_same _ _ Hlt Hsame).
    + pose proof (rounded_ascending_nth n out Hs j i b a H Hj Hi) as Hlt.
      exact (np_before_not_same _ _ Hlt (np_same_sym _ _ Hsame)).
  - intros Hnan a b Ha Hb Hnb Hsame.
    exact (representative_lowest atoms n a b Hnan Ha Hb Hnb Hsame).
Qed.
End Representatives.

(** C4 as stated fails on [nan_trajectory]: the structure kept for the
    rounded energy -1.0 is the one of energy -1.001, although the structure
    of energy -1.02 has the same rounded energy and a lower energy. *)
Lemma lowest_energy_not_kept :
  filter_local_minima nan_trajectory 2 = [ mkAtoms 0 (Finite (-1.001)%Q) ] /\
  In (mkAtoms 2 (Finite (-1.02)%Q)) nan_trajectory /\
  is_negative (mkAtoms 2 (Finite (-1.02)%Q)) = true /\
  same_rounded 2 (mkAtoms 2 (Finite (-1.02)%Q))
               (mkAtoms 0 (Finite (-1.001)%Q)) /\
  ~ float_le (Finite (-1.001)%Q) (Finite (-1.02)%Q).
Proof.
  split; [vm_compute; reflexivity|].
  split; [cbn; tauto|].
  split; [vm_compute; reflexivity|].
  split; [split; vm_compute; reflexivity|].
  cbn. intros H. vm_compute in H. now apply H.
Qed.

Lemma filter_local_minima_representatives_witness :
  (0 < 2)%Z /\ no_nan scenario /\
  float_le (Finite (-1.02)%Q) (Finite (-1.001)%Q).
Proof.
  assert (Hn : (0 < 2)%Z) by lia.
  assert (Hnan : no_nan scenario) by (repeat constructor).
  split; [exact Hn|]. split; [exact Hnan|].
  destruct (filter_local_minima_representatives scenario 2 Hn)
    as (_ & _ & _ & H).
  apply (H Hnan (mkAtoms 2 (Finite (-1.02)%Q))
           (mkAtoms 0 (Finite (-1.001)%Q)));
    [vm_compute; tauto | cbn; tauto | reflexivity
    | split; vm_compute; reflexivity].
Defined.

(** ** The number of structures and the number of significant figures *)

(** C3 as stated fails on [double_rounding]: with one significant figure
    the energies round to -1.0 and -2.0 and both structures are returned;
    with two they both round to -1.5 and one structure is returned. *)
Lemma more_figures_fewer_structures :
  (0 < 1 < 2)%Z /\
  length (filter_local_minima double_rounding 1) = 2 /\
  length (filter_local_minima double_rounding 2) = 1.
Proof. split; [lia|]. split; vm_compute; reflexivity. Qed.

Section Counting.

Lemma injection_length {A B : Type} (R : A -> B -> Prop) (l : list A)
      (l' : list B) :
  (forall x, In x l -> exists y, In y l' /\ R x y) ->
  ForallOrdPairs (fun x x' => forall y, R x y -> R x' y -> False) l ->
  length l <= length l'.
Proof.
  revert l'. induction l as [|x l IH]; intros l' Hex Hinj; cbn; [lia|].
  inversion Hinj as [|? ? Hx Hinj']; subst.
  destruct (Hex x) as (y & Hy & Hxy); [now left|].
  destruct (in_split _ _ Hy) as (l1 & l2 & ->).
  rewrite length_app. cbn. rewrite Nat.add_succ_r, <- length_app.
  apply le_n_S, IH; [|exact Hinj'].
  intros x' Hx'. destruct (Hex x') as (y' & Hy' & Hxy'); [now right|].
  exists y'. split; [|exact Hxy'].
  rewrite Forall_forall in Hx.
  apply in_app_or in Hy'. apply in_or_app.
  destruct Hy' as [H|[H|H]]; [now left| |now right].
  subst y'. exfalso. exact (Hx x' Hx' y Hxy Hxy').
Qed.

Lemma StronglySorted_pairs {A : Type} (R : A -> A -> Prop) (l : list A) :
  StronglySorted R l -> ForallOrdPairs R l.
Proof. induction 1; constructor; assumption. Qed.

Lemma ForallOrdPairs_impl_In {A : Type} (R R' : A -> A -> Prop)
      (l : list A) :
  (forall x y, In x l -> In y l -> R x y -> R' x y) ->
  ForallOrdPairs R l -> ForallOrdPairs R' l.
Proof.
  intros H. induction 1 as [|x l Hx _ IH]; constructor.
  - rewrite Forall_forall in Hx |- *. intros y Hy.
    apply H; [now left | now right | now apply Hx].
  - apply IH. intros y z Hy Hz. apply H; now right.
Qed.

(** The number of structures returned for [atoms] with [n] figures is at
    most the number returned for [atoms'] with [m] figures when every
    structure below zero of [atoms] is in [atoms'] and structures of [atoms]
    that [m] figures merge are merged by [n] figures. *)
Lemma filter_local_minima_count_le (atoms atoms' : list Atoms) (n m : Z) :
  (forall a, In a atoms -> In a atoms') ->
  (forall a b, In a atoms -> In b atoms ->
               is_negative a = true -> is_negative b = true ->
               same_rounded m a b -> same_rounded n a b) ->
  length (filter_local_minima atoms n) <=
  length (filter_local_minima atoms' m).
Proof.
  intros Hsub Hcoarse.
  destruct (filter_local_minima_spec atoms n) as (_ & Hs & _).
  destruct (filter_local_minima_spec atoms' m) as (_ & _ & Hrep & _).
  cbv zeta in Hs, Hrep.
  apply (injection_length (fun a b => same_rounded m b a)).
  - intros a Ha. apply filter_local_minima_negative in Ha.
    destruct Ha as [Ha Hn].
    assert (Ha' : In a (negative_atoms atoms'))
      by (apply negative_atoms_In; split; [now apply Hsub | exact Hn]).
    destruct (In_nth_error _ _ Ha') as (j & Hj).
    destruct (Hrep j a Hj) as (i & b & Hb & _ & E & _).
    exists b. split; [exact Hb | exact E].
  - apply StronglySorted_pairs in Hs.
    eapply ForallOrdPairs_impl_In; [|exact Hs].
    intros a a' Ha Ha' Hlt b Eb Eb'. cbn beta in Hlt.
    apply filter_local_minima_negative in Ha, Ha'.
    destruct Ha as [Ha Hna], Ha' as [Ha' Hna'].
    apply (np_before_not_same _ _ Hlt).
    apply (Hcoarse a a' Ha Ha' Hna Hna').
    eapply np_same_trans; [apply np_same_sym; exact Eb | exact Eb'].
Qed.

(** C3, as the code has it: more significant figures do not return fewer
    structures on an input on which the rounded energies with [m] figures
    refine those with [n] figures, that is when two structures below zero
    that get one rounded energy with [m] figures get one rounded energy with
    [n] figures. *)
Theorem more_figures_more_structures (atoms : list Atoms) (n m : Z) :
  (0 < n < m)%Z ->
  (forall a b, In a atoms -> In b atoms ->
               is_negative a = true -> is_negative b = true ->
               same_rounded m a b -> same_rounded n a b) ->
  length (filter_local_minima atoms n) <=
  length (filter_local_minima atoms m).
Proof.
  intros _ Hcoarse.
  apply filter_local_minima_count_le; [now intros a | exact Hcoarse].
Qed.

Lemma more_figures_more_structures_witness :
  (0 < 1 < 2)%Z /\
  length (filter_local_minima scenario 1) <=
  length (filter_local_minima scenario 2).
Proof.
  split; [lia|].
  apply (more_figures_more_structures scenario 1 2); [lia|].
  intros a b Ha Hb _ _ [H1 H2]. cbn in Ha, Hb.
  destruct Ha as [<-|[<-|[<-|[<-|[]]]]];
    destruct Hb as [<-|[<-|[<-|[<-|[]]]]];
    vm_compute in H2; try discriminate; split; vm_compute; reflexivity.
Defined.
End Counting.

(** * The claims about [filter_trajectory] and [main] *)

Section Driver.

Lemma bind_run {A B : Type} (c : io A) (k : A -> io B) (w : world) :
  (c ≫= k) w =
  match c w with
  | (Return x, w') => k x w'
  | (Raise e, w') => (Raise e, w')
  end.
Proof. reflexivity. Qed.

Lemma write_handles (trajectory : nat) (a : Atoms) (w : world) :
  handles (write trajectory a w).2 = handles w.
Proof.
  unfold write. destruct (handles w !! trajectory) as [h|]; [|reflexivity].
  destruct (h_open h && h_mode_w h); [|reflexivity].
  destruct (free_records w); reflexivity.
Qed.

Lemma for_each_write_handles (trajectory : nat) (l : list Atoms)
      (w : world) :
  handles (for_each l (fun a => write trajectory a) w).2 = handles w.
Proof.
  revert w. induction l as [|a l IH]; intros w; cbn [for_each];
    [reflexivity|].
  rewrite bind_run. pose proof (write_handles trajectory a w) as Hw.
  destruct (write trajectory a w) as [[[]|e] w']; cbn [snd] in *.
  - now rewrite IH.
  - exact Hw.
Qed.

Lemma Forall_removelast {A : Type} (P : A -> Prop) (l : list A) :
  Forall P l -> Forall P (removelast l).
Proof.
  induction 1 as [|x l Hx Hl IH]; cbn; [constructor|].
  destruct l; [constructor|]. now constructor.
Qed.

Lemma close_last (hs : list handle) (h : handle) :
  alter (fun h => mkHandle (h_path h) (h_mode_w h) false) (length hs)
        (hs ++ [h]) =
  hs ++ [mkHandle (h_path h) (h_mode_w h) false].
Proof.
  rewrite <- (Nat.add_0_r (length hs)) at 1. now rewrite alter_app_r.
Qed.

Lemma fits_int32_test (n : Z) :
  ((- 2 ^ 31 <=? n) && (n <? 2 ^ 31))%Z = true <-> fits_int32 n.
Proof.
  unfold fits_int32. rewrite andb_true_iff, Z.leb_le, Z.ltb_lt. reflexivity.
Qed.

(** With an integer that fits in an int32 the filter runs. *)
Lemma filter_local_minima_py_int (atoms : list Atoms) (n : Z) (w : world) :
  fits_int32 n ->
  filter_local_minima_py atoms (PyInt n) w =
  (Return (filter_local_minima atoms n), w).
Proof.
  intros Hn. apply fits_int32_test in Hn. unfold filter_local_minima_py.
  now rewrite Hn.
Qed.

Lemma filter_local_minima_py_overflow (atoms : list Atoms) (n : Z)
      (w : world) :
  ~ fits_int32 n ->
  filter_local_minima_py atoms (PyInt n) w = (Raise OverflowError, w).
Proof.
  intros Hn. unfold filter_local_minima_py.
  destruct ((- 2 ^ 31 <=? n) && (n <? 2 ^ 31))%Z eqn:E; [|reflexivity].
  now apply fits_int32_test in E.
Qed.

(** The filter does not touch the world. *)
Lemma filter_local_minima_py_world (atoms : list Atoms)
      (significant_figures : pyobj) (w : world) :
  (filter_local_minima_py atoms significant_figures w).2 = w.
Proof.
  destruct significant_figures as [|s|n]; cbn.
  - now destruct (negative_atoms atoms).
  - reflexivity.
  - now destruct ((- 2 ^ 31 <=? n) && (n <? 2 ^ 31))%Z.
Qed.

(** C9, as the code has it: when [filter_trajectory] returns, the two
    handles that it opened are closed; when it raises, the handle that was
    opened last may be left open, every other one is closed. *)
Theorem filter_trajectory_closes_on_return
        (input significant_figures output : pyobj) (w : world) :
  all_closed w ->
  match filter_trajectory input significant_figures output w with
  | (Return _, w') =>
      all_closed w' /\ length (handles w') = length (handles w) + 2
  | (Raise _, w') => Forall closed (removelast (handles w'))
  end.
Proof.
  intros Hw. unfold all_closed in *. unfold filter_trajectory.
  rewrite bind_run.
  destruct input as [|p|z]; cbn [Trajectory_r];
    try (now apply Forall_removelast).
  destruct (disk w !! p) as [images|] eqn:Ep;
    [|now apply Forall_removelast].
  rewrite bind_run. unfold getitem_all. cbn [handles set_handles disk].
  rewrite (list_lookup_middle (handles w) [] _ (length (handles w)) eq_refl).
  cbn [h_open h_path]. rewrite Ep.
  rewrite bind_run.
  assert (Hraise : Forall closed
            (removelast (handles w ++ [mkHandle p false true]))).
  { now rewrite removelast_last. }
  pose proof (filter_local_minima_py_world images significant_figures
                (set_handles (handles w ++ [mkHandle p false true]) w))
    as Ew1.
  destruct (filter_local_minima_py images significant_figures
              (set_handles (handles w ++ [mkHandle p false true]) w))
    as [[atoms|e] w1]; cbn [snd] in Ew1; subst w1; [|exact Hraise].
  rewrite bind_run. unfold close at 1.
  cbn [handles set_handles]. rewrite close_last. cbn [h_path h_mode_w].
  set (hs := handles w ++ [mkHandle p false false]).
  assert (Hhs : Forall closed hs).
  { apply Forall_app. split; [exact Hw|]. now repeat constructor. }
  rewrite bind_run.
  destruct (match output with PyNone => PyStr p | _ => output end)
    as [|o|z]; cbn [Trajectory_w]; try (now apply Forall_removelast).
  cbn [protected set_handles handles disk free_records].
  destruct (decide (o ∈ protected w)); [now apply Forall_removelast|].
  rewrite bind_run.
  match goal with
  | |- context [for_each atoms ?body ?w3] =>
      pose proof (for_each_write_handles (length hs) atoms w3) as Hfe;
      destruct (for_each atoms body w3) as [[[]|e] w4]
  end; cbn [snd handles] in Hfe.
  - unfold close. cbn [fst snd handles set_handles]. rewrite Hfe, close_last.
    split.
    + apply Forall_app. split; [exact Hhs|]. now repeat constructor.
    + unfold hs. rewrite !length_app. cbn. lia.
  - rewrite Hfe, removelast_last. exact Hhs.
Qed.

Lemma filter_trajectory_closes_on_return_witness :
  all_closed w0 /\
  all_closed
    (filter_trajectory (PyStr "in.traj") (PyInt 2) (PyStr "out.traj") w0).2.
Proof.
  assert (H0 : all_closed w0) by constructor.
  split; [exact H0|].
  pose proof (filter_trajectory_closes_on_return
                (PyStr "in.traj") (PyInt 2) (PyStr "out.traj") w0 H0) as H.
  destruct (filter_trajectory (PyStr "in.traj") (PyInt 2)
                              (PyStr "out.traj") w0) as [[[]|e] w'] eqn:E.
  - exact (proj1 H).
  - vm_compute in E. discriminate.
Defined.

(** C9 as stated fails.  On a disk with room for one record the second
    [write] raises and the output handle stays open; with a string as
    [significant_figures] the filter raises and the input handle stays
    open. *)
Lemma handles_left_open :
  (let r := filter_trajectory (PyStr "in.traj") (PyInt 2) (PyStr "out.traj")
                              w_full in
   r.1 = Raise OSError /\
   handles r.2 = [ mkHandle "in.traj" false false;
                   mkHandle "out.traj" true true ]) /\
  (let r := filter_trajectory (PyStr "in.traj") (PyStr "2") (PyStr "out.traj")
                              w0 in
   r.1 = Raise TypeError /\
   handles r.2 = [ mkHandle "in.traj" false true ]).
Proof. split; split; vm_compute; reflexivity. Qed.

(** C2 fails on the code: [main] hands the value of [--output] to the
    parameter [significant_figures] of [filter_trajectory] and the value of
    [--significant-figures] to its parameter [output].  For the command
    line [-i in.traj -o out.traj -s 3] the run ends in a TypeError with
    nothing written, where the call with the arguments in their places
    writes the filtered trajectory to ["out.traj"]. *)
Theorem main_passes_output_as_significant_figures :
  let args := mkNamespace "in.traj" (Some "out.traj"%string) 3 in
  cli args =
    filter_trajectory (PyStr "in.traj") (PyStr "out.traj") (PyInt 3) /\
  (cli args w0).1 = Raise TypeError /\
  disk (cli args w0).2 !! "out.traj"%string = None /\
  (let r := filter_trajectory (PyStr "in.traj") (PyInt 3) (PyStr "out.traj")
                              w0 in
   r.1 = Return tt /\
   disk r.2 !! "out.traj"%string = Some (filter_local_minima scenario 3)).
Proof.
  cbv zeta. split; [reflexivity|].
  repeat split; vm_compute; reflexivity.
Qed.
End Driver.

(** * Further properties of [filter_local_minima] *)

Section Selection.

Lemma StronglySorted_NoDup {A : Type} (R : A -> A -> Prop) (l : list A) :
  (forall x, ~ R x x) -> StronglySorted R l -> NoDup l.
Proof.
  intros Hirr. induction 1 as [|x l _ IH Hx]; constructor; [|exact IH].
  intros Hin. rewrite Forall_forall in Hx. exact (Hirr x (Hx x Hin)).
Qed.

(** X1: [filter_local_minima] only selects.  Every structure that it
    returns is a structure of the input, no structure is returned twice, and
    the result is not longer than the input. *)
Theorem filter_local_minima_selects (atoms : list Atoms) (n : Z) :
  (forall a, In a (filter_local_minima atoms n) -> In a atoms) /\
  NoDup (filter_local_minima atoms n) /\
  length (filter_local_minima atoms n) <= length atoms.
Proof.
  destruct (filter_local_minima_spec atoms n) as (_ & Hs & _).
  cbv zeta in Hs.
  assert (Hsub : forall a, In a (filter_local_minima atoms n) -> In a atoms).
  { intros a Ha. now apply (filter_local_minima_negative atoms n). }
  assert (Hnd : NoDup (filter_local_minima atoms n)).
  { eapply StronglySorted_NoDup; [|exact Hs].
    intros x. apply np_before_irrefl. }
  split; [exact Hsub|]. split; [exact Hnd|].
  apply NoDup_incl_length; [exact Hnd | exact Hsub].
Qed.

(** X2: the result is empty exactly when no structure of the input has a
    potential energy below zero. *)
Theorem filter_local_minima_empty_iff (atoms : list Atoms) (n : Z) :
  filter_local_minima atoms n = [] <->
  (forall a, In a atoms -> is_negative a = false).
Proof.
  destruct (filter_local_minima_spec atoms n) as (Hin & _ & Hrep & _).
  cbv zeta in Hin, Hrep. split.
  - intros E a Ha. destruct (is_negative a) eqn:Hn; [exfalso|reflexivity].
    assert (Hneg : In a (negative_atoms atoms))
      by now apply negative_atoms_In.
    destruct (In_nth_error _ _ Hneg) as (j & Hj).
    destruct (Hrep j a Hj) as (i & b & Hb & _). rewrite E in Hb. destruct Hb.
  - intros Hall. destruct (filter_local_minima atoms n) as [|a out] eqn:E;
      [reflexivity|exfalso].
    assert (Ha : In a (negative_atoms atoms)) by (apply Hin; now left).
    apply negative_atoms_In in Ha. destruct Ha as [Ha Hn].
    rewrite (Hall a Ha) in Hn. discriminate.
Qed.

(** X3: the number of structures returned does not depend on the order of
    the input. *)
Theorem filter_local_minima_count_permutation (atoms atoms' : list Atoms)
        (n : Z) :
  Permutation atoms atoms' ->
  length (filter_local_minima atoms n) =
  length (filter_local_minima atoms' n).
Proof.
  intros Hp.
  apply Nat.le_antisymm; apply filter_local_minima_count_le;
    try (intros a b _ _ _ _ H; exact H).
  - intros a. now apply Permutation_in.
  - intros a. apply Permutation_in. now symmetry.
Qed.

Lemma filter_local_minima_count_permutation_witness :
  Permutation scenario (rev scenario) /\
  length (filter_local_minima scenario 2) =
  length (filter_local_minima (rev scenario) 2).
Proof.
  assert (Hp : Permutation scenario (rev scenario))
    by apply Permutation_rev.
  split; [exact Hp|].
  apply (filter_local_minima_count_permutation scenario (rev scenario) 2 Hp).
Defined.

Lemma float_le_negative (x y : float) :
  float_le x y -> float_lt y (Finite 0%Q) = true ->
  float_lt x (Finite 0%Q) = true.
Proof.
  rewrite float_le_spec, !float_lt_spec.
  intros (Hx & _ & Hxy) (_ & H0 & Hy). repeat split; try assumption.
  destruct (np_total x y) as [H|[H|H]]; [| |contradiction].
  - eapply np_before_trans; eassumption.
  - eapply np_before_same_l; eassumption.
Qed.

(** X4: without NaN in the input, a structure of the lowest potential
    energy of the whole input is kept whenever an energy is below zero: the
    global minimum is never filtered out. *)
Theorem global_minimum_kept (atoms : list Atoms) (n : Z) :
  no_nan atoms ->
  (exists c, In c atoms /\ is_negative c = true) ->
  exists a, In a (filter_local_minima atoms n) /\
            forall b, In b atoms ->
                      float_le (get_potential_energy a)
                               (get_potential_energy b).
Proof.
  intros Hnan (c & Hc & Hnc).
  pose proof (sorted_atoms_sorted atoms Hnan) as Hsorted.
  pose proof (negative_atoms_filter atoms) as Eneg.
  pose proof (sorted_atoms_In atoms) as Hin.
  destruct (sorted_atoms atoms) as [|a0 rest].
  { destruct (proj2 (Hin c) Hc). }
  inversion Hsorted as [|? ? _ Hall]; subst. rewrite Forall_forall in Hall.
  assert (Ha0 : In a0 atoms) by (apply Hin; now left).
  assert (Hle : forall b, In b atoms ->
              float_le (get_potential_energy a0) (get_potential_energy b)).
  { intros b Hb. apply Hin in Hb. destruct Hb as [<-|Hb]; [|now apply Hall].
    unfold no_nan in Hnan. rewrite Forall_forall in Hnan.
    apply float_le_spec. repeat split; try (now apply Hnan).
    apply np_before_irrefl. }
  assert (Hn0 : is_negative a0 = true).
  { unfold is_negative in *. eapply float_le_negative; [|exact Hnc].
    now apply Hle. }
  cbn [List.filter] in Eneg. rewrite Hn0 in Eneg.
  destruct (filter_local_minima_spec atoms n) as (_ & _ & Hrep & _).
  cbv zeta in Hrep.
  destruct (Hrep 0 a0) as (i & a & Ha & Hi & _ & Hi0);
    [now rewrite Eneg|].
  assert (i = 0) by lia. subst i. rewrite Eneg in Hi. injection Hi as ->.
  exists a. split; [exact Ha | exact Hle].
Qed.

Lemma global_minimum_kept_witness :
  no_nan scenario /\
  exists a, In a (filter_local_minima scenario 2) /\
            forall b, In b scenario ->
                      float_le (get_potential_energy a)
                               (get_potential_energy b).
Proof.
  assert (Hnan : no_nan scenario) by (repeat constructor).
  split; [exact Hnan|].
  apply (global_minimum_kept scenario 2 Hnan).
  exists (mkAtoms 3 (Finite (-2.5)%Q)). split; [cbn; tauto | reflexivity].
Defined.
End Selection.

(** ** Structures of equal energy *)

Section Stability.

(** The sort is stable: elements that are not smaller than one another keep
    their order. *)
Lemma insort_filter {A : Type} (ltb : A -> A -> bool) (P : A -> bool)
      (x : A) (acc : list A) :
  (forall y z, P y = true -> P z = true -> ltb y z = false) ->
  List.filter P (insort ltb x acc) = List.filter P (x :: acc).
Proof.
  intros HP. induction acc as [|y acc IH]; [reflexivity|].
  cbn [insort]. destruct (ltb x y) eqn:Exy; [|reflexivity].
  cbn [List.filter] in *. rewrite IH.
  destruct (P x) eqn:Px, (P y) eqn:Py; try reflexivity.
  rewrite (HP x y Px Py) in Exy. discriminate.
Qed.

Lemma fold_insort_filter {A : Type} (ltb : A -> A -> bool) (P : A -> bool)
      (l acc : list A) :
  (forall y z, P y = true -> P z = true -> ltb y z = false) ->
  List.filter P (fold_left (fun acc x => insort ltb x acc) l acc) =
  rev (List.filter P l) ++ List.filter P acc.
Proof.
  intros HP. revert acc. induction l as [|x l IH]; intros acc; [reflexivity|].
  cbn [fold_left]. rewrite IH, insort_filter by exact HP.
  cbn [List.filter]. destruct (P x); cbn [rev]; [|reflexivity].
  now rewrite <- app_assoc.
Qed.

Lemma filter_rev {A : Type} (P : A -> bool) (l : list A) :
  List.filter P (rev l) = rev (List.filter P l).
Proof.
  induction l as [|x l IH]; [reflexivity|].
  cbn [rev List.filter]. rewrite List.filter_app, IH. cbn [List.filter].
  destruct (P x); [reflexivity | now rewrite app_nil_r].
Qed.

Lemma sort_by_stable {A : Type} (ltb : A -> A -> bool) (P : A -> bool)
      (l : list A) :
  (forall y z, P y = true -> P z = true -> ltb y z = false) ->
  List.filter P (sort_by ltb l) = List.filter P l.
Proof.
  intros HP. unfold sort_by.
  rewrite filter_rev, fold_insort_filter by exact HP.
  cbn [List.filter]. now rewrite app_nil_r, rev_involutive.
Qed.

Lemma filter_nil {A : Type} (P : A -> bool) (l : list A) :
  (forall x, In x l -> P x = false) -> List.filter P l = [].
Proof.
  induction l as [|x l IH]; intros H; [reflexivity|]. cbn.
  rewrite (H x) by now left. apply IH. intros y Hy. apply H. now right.
Qed.

(** X5: without NaN in the input, of the structures that have the same
    potential energy as a returned structure, the returned one comes first
    in the input: among equal energies the filter keeps the earliest. *)
Theorem filter_local_minima_keeps_earliest (atoms : list Atoms) (n : Z)
        (a : Atoms) :
  no_nan atoms ->
  In a (filter_local_minima atoms n) ->
  exists l1 l2,
    atoms = l1 ++ a :: l2 /\
    forall c, In c l1 ->
      float_eq (get_potential_energy c) (get_potential_energy a) = false.
Proof.
  intros _ Ha.
  pose proof (filter_local_minima_negative atoms n a Ha) as [_ Hneg].
  set (P := fun c : Atoms =>
              float_eq (get_potential_energy c) (get_potential_energy a)).
  assert (HPs : forall c, P c = true ->
                  np_same (get_potential_energy c) (get_potential_energy a)).
  { intros c Hc. now apply float_eq_spec in Hc. }
  assert (HP : forall y z, P y = true -> P z = true ->
                 float_lt (get_potential_energy y) (get_potential_energy z)
                 = false).
  { intros y z Hy Hz.
    destruct (float_lt (get_potential_energy y) (get_potential_energy z))
      eqn:E; [exfalso|reflexivity].
    apply float_lt_spec in E. destruct E as (_ & _ & E).
    apply (np_before_not_same _ _ E).
    eapply np_same_trans; [apply HPs, Hy | apply np_same_sym, HPs, Hz]. }
  pose proof (sort_by_stable _ P atoms HP) as Hstable.
  fold (sorted get_potential_energy atoms) in Hstable.
  fold (sorted_atoms atoms) in Hstable.
  destruct (filter_local_minima_first atoms n a Ha) as (s1 & s2 & Es & Hs1).
  rewrite Es, List.filter_app in Hstable. cbn [List.filter] in Hstable.
  assert (Pa : P a = true).
  { unfold P. apply float_eq_spec.
    split; [now apply is_negative_not_nan | apply np_same_refl]. }
  rewrite Pa in Hstable.
  rewrite (filter_nil P s1) in Hstable.
  - cbn [app] in Hstable. symmetry in Hstable.
    destruct (filter_split P atoms [] _ a Hstable) as (l1 & l2 & El & E1 & _).
    exists l1, l2. split; [exact El|]. intros c Hc.
    destruct (P c) eqn:Pc; [|exact Pc].
    assert (Hcf : In c (List.filter P l1)) by now apply filter_In.
    rewrite E1 in Hcf. destruct Hcf.
  - intros c Hc. destruct (P c) eqn:Pc; [exfalso|reflexivity].
    assert (Hnc : is_negative c = true).
    { unfold is_negative in *. apply float_lt_spec.
      apply float_lt_spec in Hneg. destruct Hneg as (_ & H0 & Hlt).
      apply float_eq_spec in Pc. destruct Pc as [Hc' Hsame].
      repeat split; try assumption.
      eapply np_before_same_l; eassumption. }
    apply (Hs1 c Hc Hnc). unfold same_rounded, rounded.
    now apply round_energy_comp, HPs.
Qed.

Lemma filter_local_minima_keeps_earliest_witness :
  no_nan [ mkAtoms 7 (Finite (-1.5)%Q); mkAtoms 8 (Finite (-1.5)%Q) ] /\
  exists l1 l2,
    [ mkAtoms 7 (Finite (-1.5)%Q); mkAtoms 8 (Finite (-1.5)%Q) ] =
      l1 ++ mkAtoms 7 (Finite (-1.5)%Q) :: l2 /\
    forall c, In c l1 ->
      float_eq (get_potential_energy c) (Finite (-1.5)%Q) = false.
Proof.
  assert (Hnan : no_nan [ mkAtoms 7 (Finite (-1.5)%Q);
                          mkAtoms 8 (Finite (-1.5)%Q) ])
    by (repeat constructor).
  split; [exact Hnan|].
  apply (filter_local_minima_keeps_earliest
           [ mkAtoms 7 (Finite (-1.5)%Q); mkAtoms 8 (Finite (-1.5)%Q) ] 2
           (mkAtoms 7 (Finite (-1.5)%Q)) Hnan).
  vm_compute. tauto.
Defined.
End Stability.

(** * Fixed points of [filter_local_minima] *)

Section FixedPoints.

(** X9: the lists that [filter_local_minima] returns unchanged are exactly
    the lists of structures below zero whose rounded energies, as line 45
    computes them, increase strictly in the order of [np.unique] (NaN
    last). *)
Theorem filter_local_minima_fixed_iff (l : list Atoms) (n : Z) :
  filter_local_minima l n = l <->
  Forall (fun a => is_negative a = true) l /\ rounded_ascending n l.
Proof.
  split.
  - intros E. destruct (filter_local_minima_spec l n) as (_ & Hs & _).
    cbv zeta in Hs. rewrite E in Hs. split; [|exact Hs].
    rewrite Forall_forall. intros a Ha. rewrite <- E in Ha.
    now apply (filter_local_minima_negative l n).
  - intros [Hneg Hs]. now apply filter_local_minima_fixed.
Qed.
End FixedPoints.

(** * Further properties of [filter_trajectory] and [main] *)

Section Runs.

Lemma world_eta (w : world) :
  mkWorld (disk w) (handles w) (protected w) (free_records w) = w.
Proof. now destruct w. Qed.

(** The loop of lines 80-81 appends the structures in order for as long as
    the disk has room. *)
Lemma for_each_write_run (h : nat) (o : string) (l c : list Atoms)
      (w : world) :
  handles w !! h = Some (mkHandle o true true) ->
  disk w !! o = Some c ->
  for_each l (fun a => write h a) w =
  (if length l <=? free_records w then Return tt else Raise OSError,
   mkWorld (<[o := c ++ take (free_records w) l]> (disk w)) (handles w)
           (protected w) (free_records w - length l)).
Proof.
  revert c w. induction l as [|a l IH]; intros c w Hh Hc.
  - cbn [for_each length Nat.leb]. rewrite take_nil, app_nil_r.
    rewrite (insert_id _ _ _ Hc), Nat.sub_0_r, world_eta. reflexivity.
  - cbn [for_each]. rewrite bind_run. unfold write at 1.
    rewrite Hh. cbn [h_open h_mode_w h_path andb]. rewrite Hc.
    cbn [default from_option id].
    destruct (free_records w) as [|f] eqn:Ef.
    + cbn [length Nat.leb Nat.sub]. rewrite take_0, app_nil_r.
      rewrite (insert_id _ _ _ Hc). rewrite <- Ef, world_eta. reflexivity.
    + rewrite (IH (c ++ [a])).
      * cbn [disk handles protected free_records length Nat.leb Nat.sub].
        rewrite insert_insert_eq, <- app_assoc. reflexivity.
      * exact Hh.
      * cbn [disk]. apply lookup_insert_eq.
Qed.

(** A run up to the filter: the input is opened and read. *)
Lemma filter_trajectory_read (p : string) (significant_figures output : pyobj)
      (images : list Atoms) (w : world) :
  disk w !! p = Some images ->
  filter_trajectory (PyStr p) significant_figures output w =
  (atoms ← filter_local_minima_py images significant_figures;
   close (length (handles w));;
   trajectory ← Trajectory_w (output_path (PyStr p) output);
   for_each atoms (fun a => write trajectory a);;
   close trajectory)
    (set_handles (handles w ++ [mkHandle p false true]) w).
Proof.
  intros Ep. unfold filter_trajectory.
  fold (output_path (PyStr p) output).
  rewrite bind_run. cbn [Trajectory_r]. rewrite Ep.
  rewrite bind_run. unfold getitem_all. cbn [handles set_handles disk].
  rewrite (list_lookup_middle (handles w) [] _ (length (handles w)) eq_refl).
  cbn [h_open h_path]. rewrite Ep. reflexivity.
Qed.

(** A run with an integer that fits in an int32, up to the opening of the
    output: the input handle is closed. *)
Lemma filter_trajectory_after_filter (p : string) (n : Z) (output : pyobj)
      (images : list Atoms) (w : world) :
  fits_int32 n ->
  disk w !! p = Some images ->
  filter_trajectory (PyStr p) (PyInt n) output w =
  (trajectory ← Trajectory_w (output_path (PyStr p) output);
   for_each (filter_local_minima images n) (fun a => write trajectory a);;
   close trajectory)
    (set_handles (handles w ++ [mkHandle p false false]) w).
Proof.
  intros Hn Ep. rewrite (filter_trajectory_read p _ _ images w Ep).
  rewrite bind_run, (filter_local_minima_py_int images n _ Hn).
  rewrite bind_run. unfold close at 1.
  cbn [handles set_handles]. rewrite close_last. reflexivity.
Qed.

(** A run with an integer that does not fit in an int32 stops in the
    filter. *)
Lemma filter_trajectory_overflow (p : string) (n : Z) (output : pyobj)
      (images : list Atoms) (w : world) :
  ~ fits_int32 n ->
  disk w !! p = Some images ->
  filter_trajectory (PyStr p) (PyInt n) output w =
  (Raise OverflowError,
   set_handles (handles w ++ [mkHandle p false true]) w).
Proof.
  intros Hn Ep. rewrite (filter_trajectory_read p _ _ images w Ep).
  rewrite bind_run. now rewrite (filter_local_minima_py_overflow images n _ Hn).
Qed.

(** A run with an integer that fits in an int32, an input that exists and
    an output that can be opened. *)
Lemma filter_trajectory_run (p o : string) (n : Z) (output : pyobj)
      (images : list Atoms) (w : world) :
  fits_int32 n ->
  disk w !! p = Some images ->
  output_path (PyStr p) output = PyStr o ->
  o ∉ protected w ->
  filter_trajectory (PyStr p) (PyInt n) output w =
  (if length (filter_local_minima images n) <=? free_records w
   then Return tt else Raise OSError,
   mkWorld (<[o := take (free_records w) (filter_local_minima images n)]>
              (disk w))
           (handles w ++
              [ mkHandle p false false;
                mkHandle o true
                  (negb (length (filter_local_minima images n)
                         <=? free_records w)) ])
           (protected w)
           (free_records w - length (filter_local_minima images n))).
Proof.
  intros Hn Ep Eo Ho.
  rewrite (filter_trajectory_after_filter p n output images w Hn Ep), Eo.
  rewrite bind_run. cbn [Trajectory_w protected set_handles handles disk
                                      free_records].
  destruct (decide (o ∈ protected w)) as [Hin|_]; [contradiction|].
  set (atoms := filter_local_minima images n).
  set (hs := handles w ++ [mkHandle p false false]).
  rewrite bind_run.
  rewrite (for_each_write_run (length hs) o atoms []).
  - cbn [disk handles protected free_records app].
    rewrite insert_insert_eq.
    destruct (length atoms <=? free_records w); cbn [negb].
    + unfold close. cbn [handles set_handles disk protected free_records].
      rewrite close_last. cbn [h_path h_mode_w]. unfold hs.
      now rewrite <- app_assoc.
    + unfold hs. now rewrite <- app_assoc.
  - cbn [handles]. now apply list_lookup_middle.
  - cbn [disk]. apply lookup_insert_eq.
Qed.

Lemma fits_int32_2 : fits_int32 2.
Proof. unfold fits_int32. lia. Qed.
End Runs.

Section Files.

(** X10: with an input file that exists, a number of significant figures
    that fits in an int32, an output path that can be opened and room on
    the disk, [filter_trajectory] returns, the output file holds exactly
    the filtered sequence in its order, no other file changes and no handle
    is left open.  When [output] is [None] the output file is the input
    file, whose former content is lost. *)
Theorem filter_trajectory_writes_filtered (p o : string) (n : Z)
        (output : pyobj) (images : list Atoms) (w : world) :
  fits_int32 n ->
  disk w !! p = Some images ->
  output_path (PyStr p) output = PyStr o ->
  o ∉ protected w ->
  length (filter_local_minima images n) <= free_records w ->
  let r := filter_trajectory (PyStr p) (PyInt n) output w in
  r.1 = Return tt /\
  disk r.2 !! o = Some (filter_local_minima images n) /\
  (forall q, q ≠ o -> disk r.2 !! q = disk w !! q) /\
  (all_closed w -> all_closed r.2).
Proof.
  intros Hn Ep Eo Ho Hroom r. unfold r.
  rewrite (filter_trajectory_run p o n output images w Hn Ep Eo Ho).
  apply Nat.leb_le in Hroom as Hb. rewrite Hb. cbn [fst snd disk handles negb].
  split; [reflexivity|]. split; [|split].
  - rewrite lookup_insert_eq. f_equal. now apply firstn_all2.
  - intros q Hq. now apply lookup_insert_ne.
  - intros Hw. unfold all_closed in *. cbn [handles].
    apply Forall_app. split; [exact Hw|]. now repeat constructor.
Qed.

Lemma filter_trajectory_writes_filtered_witness :
  fits_int32 2 /\
  disk w0 !! "in.traj"%string = Some scenario /\
  disk (filter_trajectory (PyStr "in.traj") (PyInt 2) PyNone w0).2
    !! "in.traj"%string = Some (filter_local_minima scenario 2).
Proof.
  assert (Ep : disk w0 !! "in.traj"%string = Some scenario) by reflexivity.
  split; [exact fits_int32_2|]. split; [exact Ep|].
  apply (filter_trajectory_writes_filtered "in.traj" "in.traj" 2 PyNone
           scenario w0 fits_int32_2 Ep eq_refl).
  - cbn. apply not_elem_of_empty.
  - vm_compute. lia.
Defined.

(** X11: whatever the arguments and the disk, a run of [filter_trajectory]
    with an integer number of significant figures either fails and leaves
    every file as it was, or changes the output file alone, which then holds
    the first structures of the filtered sequence, as many as the disk had
    room for: all of them exactly when the run returns.  A failure while
    writing is not rolled back. *)
Theorem filter_trajectory_partial_write (input output : pyobj) (n : Z)
        (w : world) :
  let r := filter_trajectory input (PyInt n) output w in
  (r.1 <> Return tt /\ disk r.2 = disk w) \/
  (exists p o images,
      input = PyStr p /\ disk w !! p = Some images /\
      output_path input output = PyStr o /\
      disk r.2 =
        <[o := take (free_records w) (filter_local_minima images n)]>
          (disk w) /\
      (r.1 = Return tt <->
       length (filter_local_minima images n) <= free_records w)).
Proof.
  intros r. unfold r. clear r.
  destruct input as [|p|z];
    try (left; split; [discriminate | reflexivity]).
  destruct (disk w !! p) as [images|] eqn:Ep.
  2:{ left. unfold filter_trajectory. rewrite bind_run. cbn [Trajectory_r].
      rewrite Ep. split; [discriminate | reflexivity]. }
  destruct (decide (fits_int32 n)) as [Hn|Hn].
  2:{ left. rewrite (filter_trajectory_overflow p n output images w Hn Ep).
      split; [discriminate | reflexivity]. }
  destruct (output_path (PyStr p) output) as [|o|z] eqn:Eo.
  - left.
    rewrite (filter_trajectory_after_filter p n output images w Hn Ep), Eo.
    split; [discriminate | reflexivity].
  - destruct (decide (o ∈ protected w)) as [Hin|Hout].
    + left.
      rewrite (filter_trajectory_after_filter p n output images w Hn Ep), Eo.
      rewrite bind_run. cbn [Trajectory_w protected set_handles].
      destruct (decide (o ∈ protected w)); [|contradiction].
      split; [discriminate | reflexivity].
    + right. exists p, o, images.
      split; [reflexivity|]. split; [exact Ep|]. split; [reflexivity|].
      rewrite (filter_trajectory_run p o n output images w Hn Ep Eo Hout).
      cbn [fst snd disk]. split; [reflexivity|].
      destruct (Nat.leb_spec (length (filter_local_minima images n))
                             (free_records w)) as [H|H].
      * split; [intros _; exact H | reflexivity].
      * split; [discriminate | lia].
  - left.
    rewrite (filter_trajectory_after_filter p n output images w Hn Ep), Eo.
    split; [discriminate | reflexivity].
Qed.





End Files.

(** * The order of the input *)

Section InputOrder.

(** Two lists in strictly ascending order of a key that hold the same keys
    hold them position by position. *)
Lemma sorted_same_keys {A : Type} (lt same : A -> A -> Prop) (l l' : list A) :
  (forall a b, lt a b -> ~ same a b) ->
  (forall a b, same a b -> same b a) ->
  (forall a b c, lt a b -> same b c -> lt a c) ->
  (forall a b c, same a b -> lt b c -> lt a c) ->
  (forall a b, lt a b -> lt b a -> False) ->
  StronglySorted lt l -> StronglySorted lt l' ->
  (forall a, In a l -> exists b, In b l' /\ same b a) ->
  (forall b, In b l' -> exists a, In a l /\ same a b) ->
  Forall2 same l l'.
Proof.
  intros Hns Hsym Hr Hl Hasym Hs. revert l'.
  induction Hs as [|a t Hs IH Ha]; intros l' Hs' H1 H2.
  - destruct l' as [|b t']; [constructor|].
    destruct (H2 b) as (a & [] & _). now left.
  - destruct l' as [|b t'].
    { destruct (H1 a) as (b & [] & _). now left. }
    inversion Hs' as [|? ? Hs'' Hb]; subst.
    rewrite Forall_forall in Ha, Hb.
    assert (Eab : same a b).
    { destruct (H1 a) as (b0 & [<-|Hb0] & E0); [now left | now apply Hsym |].
      destruct (H2 b) as (a0 & [<-|Ha0] & E1); [now left | exact E1 |].
      exfalso. apply (Hasym a b).
      - exact (Hr a a0 b (Ha a0 Ha0) E1).
      - exact (Hr b b0 a (Hb b0 Hb0) E0). }
    constructor; [exact Eab|]. apply IH; [exact Hs''| |].
    + intros x Hx. destruct (H1 x) as (y & [<-|Hy] & E); [now right| |].
      * exfalso. apply (Hns a b); [|exact Eab].
        exact (Hr a x b (Ha x Hx) (Hsym _ _ E)).
      * exists y. split; [exact Hy | exact E].
    + intros y Hy. destruct (H2 y) as (x & [<-|Hx] & E); [now right| |].
      * exfalso. apply (Hns a y); [|exact E].
        exact (Hl a b y Eab (Hb y Hy)).
      * exists x. split; [exact Hx | exact E].
Qed.

Lemma Forall2_impl_In {A B : Type} (R R' : A -> B -> Prop) (l : list A)
      (l' : list B) :
  (forall x y, In x l -> In y l' -> R x y -> R' x y) ->
  Forall2 R l l' -> Forall2 R' l l'.
Proof.
  intros H. induction 1 as [|x y l l' Hxy _ IH]; constructor.
  - apply H; [now left | now left | exact Hxy].
  - apply IH. intros x' y' Hx' Hy'. apply H; now right.
Qed.

Lemma filter_local_minima_covers (atoms atoms' : list Atoms) (n : Z)
      (a : Atoms) :
  (forall c, In c atoms -> In c atoms') ->
  In a (filter_local_minima atoms n) ->
  exists b, In b (filter_local_minima atoms' n) /\ same_rounded n b a.
Proof.
  intros Hsub Ha.
  destruct (filter_local_minima_spec atoms' n) as (_ & _ & Hrep & _).
  cbv zeta in Hrep.
  apply filter_local_minima_negative in Ha. destruct Ha as [Ha Hn].
  assert (Ha' : In a (negative_atoms atoms'))
    by (apply negative_atoms_In; split; [now apply Hsub | exact Hn]).
  destruct (In_nth_error _ _ Ha') as (j & Hj).
  destruct (Hrep j a Hj) as (i & b & Hb & _ & E & _).
  exists b. split; [exact Hb | exact E].
Qed.

(** X14: without NaN in the input, the potential energies of the result,
    position by position, do not depend on the order of the input: a
    permutation of the trajectory can only change which of several
    structures of equal energy is kept. *)
Theorem filter_local_minima_energies_permutation (atoms atoms' : list Atoms)
        (n : Z) :
  no_nan atoms -> Permutation atoms atoms' ->
  Forall2 (fun a b => float_eq (get_potential_energy a)
                               (get_potential_energy b) = true)
          (filter_local_minima atoms n) (filter_local_minima atoms' n).
Proof.
  intros Hnan Hp.
  assert (Hnan' : no_nan atoms').
  { unfold no_nan in *. now rewrite <- Hp. }
  assert (Hsub : forall c, In c atoms -> In c atoms')
    by (intros c; now apply Permutation_in).
  assert (Hsub' : forall c, In c atoms' -> In c atoms)
    by (intros c; apply Permutation_in; now symmetry).
  destruct (filter_local_minima_spec atoms n) as (_ & Hs & _).
  destruct (filter_local_minima_spec atoms' n) as (_ & Hs' & _).
  cbv zeta in Hs, Hs'.
  assert (HF : Forall2 (same_rounded n) (filter_local_minima atoms n)
                       (filter_local_minima atoms' n)).
  { apply (sorted_same_keys
             (fun a b => np_before (rounded n a) (rounded n b))
             (same_rounded n)).
    - intros a b. apply np_before_not_same.
    - intros a b. apply np_same_sym.
    - intros a b c. apply np_before_same_r.
    - intros a b c. apply np_before_same_l.
    - intros a b H1 H2.
      eapply np_before_irrefl, np_before_trans; eassumption.
    - exact Hs.
    - exact Hs'.
    - intros a Ha.
      exact (filter_local_minima_covers atoms atoms' n a Hsub Ha).
    - intros b Hb.
      exact (filter_local_minima_covers atoms' atoms n b Hsub' Hb). }
  eapply Forall2_impl_In; [|exact HF].
  intros a b Ha Hb E. cbn beta.
  pose proof (filter_local_minima_negative atoms n a Ha) as [Haa Hna].
  pose proof (filter_local_minima_negative atoms' n b Hb) as [Hbb Hnb].
  apply float_le_antisym.
  - apply (representative_lowest atoms n a b Hnan Ha (Hsub' b Hbb) Hnb).
    now apply np_same_sym.
  - exact (representative_lowest atoms' n b a Hnan' Hb (Hsub a Haa) Hna E).
Qed.

Lemma filter_local_minima_energies_permutation_witness :
  no_nan scenario /\ Permutation scenario (rev scenario) /\
  Forall2 (fun a b => float_eq (get_potential_energy a)
                               (get_potential_energy b) = true)
          (filter_local_minima scenario 2)
          (filter_local_minima (rev scenario) 2).
Proof.
  assert (Hnan : no_nan scenario) by (repeat constructor).
  assert (Hp : Permutation scenario (rev scenario)) by apply Permutation_rev.
  split; [exact Hnan|]. split; [exact Hp|].
  exact (filter_local_minima_energies_permutation scenario (rev scenario) 2
           Hnan Hp).
Defined.
End InputOrder.

(** * Failures before anything is written *)

Section EarlyFailures.



(** X16: a number of significant figures that does not fit in an int32
    stops the run at line 43 with an OverflowError: nothing is written, no
    file is changed, and the input handle, which is open at that point, is
    left open. *)
Theorem filter_trajectory_overflow_error (p : string) (n : Z)
        (output : pyobj) (images : list Atoms) (w : world) :
  disk w !! p = Some images ->
  (n < - 2 ^ 31 \/ 2 ^ 31 <= n)%Z ->
  let r := filter_trajectory (PyStr p) (PyInt n) output w in
  r.1 = Raise OverflowError /\
  disk r.2 = disk w /\
  handles r.2 = handles w ++ [mkHandle p false true].
Proof.
  intros Ep Hn r. unfold r.
  rewrite (filter_trajectory_overflow p n output images w); [|  |exact Ep].
  - repeat split.
  - unfold fits_int32. lia.
Qed.

Lemma filter_trajectory_overflow_error_witness :
  disk w0 !! "in.traj"%string = Some scenario /\
  (filter_trajectory (PyStr "in.traj") (PyInt (2 ^ 31)) (PyStr "out.traj")
                     w0).1 = Raise OverflowError.
Proof.
  assert (Ep : disk w0 !! "in.traj"%string = Some scenario) by reflexivity.
  split; [exact Ep|].
  destruct (filter_trajectory_overflow_error "in.traj" (2 ^ 31)
              (PyStr "out.traj") scenario w0 Ep) as [H _]; [|exact H].
  right. lia.
Defined.
End EarlyFailures.
